(** * Signaling relay and peer-session coordination

    A shallow embedding of [Backend/server.js] (the Socket.IO room registry
    and signaling relay) and of the [useWebRTC] hook (the client-side
    session coordinator), followed by the properties of the protocol
    specification that the code satisfies or violates.

    Conventions of the embedding.
    - A JavaScript [Map] whose iteration order is observable
      ([Array.from(room.users.values())], [peersRef.current.forEach]) is an
      insertion-ordered association list, module [JsMap].  The two
      top-level registries [rooms] and [users] of the server are only ever
      read by key and are finite maps ([gmap]).
    - Values produced by the environment ([new Date()], [uuidv4()],
      [createOffer()], [createAnswer()], [getUserMedia()]) are inputs of
      the handler that consumes them.
    - A handler returns the new state together with the messages it emits,
      in emission order.
    - An [RTCPeerConnection] is a platform object: the embedding keeps, per
      object, the sequence of method calls the code performs on it. *)

From stdpp Require Import gmap strings list fin_maps.
From Stdlib Require Import ZArith.

Set Default Proof Using "Type".

(** ** Insertion-ordered maps with string keys (the JavaScript [Map]) *)

Module JsMap.
Section ops.
Context {V : Type}.

(** [m.get(k)] *)
Fixpoint get (k : string) (m : list (string * V)) : option V :=
  match m with
  | [] => None
  | (k', v) :: m' => if decide (k = k') then Some v else get k m'
  end.

(** [m.has(k)] *)
Definition has (k : string) (m : list (string * V)) : bool :=
  match get k m with Some _ => true | None => false end.

(** [m.set(k, v)]: an existing key keeps its position, a new key goes
    last. *)
Fixpoint set (k : string) (v : V) (m : list (string * V)) : list (string * V) :=
  match m with
  | [] => [(k, v)]
  | (k', v') :: m' =>
      if decide (k = k') then (k, v) :: m' else (k', v') :: set k v m'
  end.

(** [m.delete(k)]; a map built with [set] has no key twice, so at most
    one entry goes. *)
Fixpoint delete (k : string) (m : list (string * V)) : list (string * V) :=
  match m with
  | [] => []
  | (k', v') :: m' =>
      if decide (k = k') then delete k m' else (k', v') :: delete k m'
  end.

(** [m.size] *)
Definition size (m : list (string * V)) : nat := length m.

(** [Array.from(m.values())] and [Array.from(m.keys())] *)
Definition values (m : list (string * V)) : list V := m.*2.
Definition keys (m : list (string * V)) : list string := m.*1.
End ops.
End JsMap.

(** ** Data carried by the protocol *)

Inductive SdpType := SdpOffer | SdpAnswer.

(** [RTCSessionDescriptionInit] and [RTCIceCandidateInit]: opaque to the
    relay, produced and consumed by the platform. *)
Record RTCSessionDescriptionInit := {
  sdp_type : SdpType;
  sdp : string
}.

Record RTCIceCandidateInit := {
  candidate : string
}.

(** An entry of [room.users]. *)
Record Member := {
  member_id : string;
  member_username : string;
  member_joinedAt : Z
}.

(** [messageData] of the send-message handler. *)
Record ChatMessage := {
  msg_id : string;
  msg_username : string;
  msg_message : string;
  msg_timestamp : Z;
  msg_userId : string
}.

(** Events a client sends to the server ([socket.emit] on the client,
    [socket.on] on the server).  [data.isVideoCall] may be missing. *)
Inductive ClientEvent :=
  | JoinRoom (roomId username : string) (isVideoCall : option bool)
  | SendMessage (message : string)
  | WebrtcOffer (targetUserId : string) (offer : RTCSessionDescriptionInit)
  | WebrtcAnswer (targetUserId : string) (answer : RTCSessionDescriptionInit)
  | WebrtcIceCandidate (targetUserId : string) (cand : RTCIceCandidateInit)
  | StartVideoCall
  | EndVideoCall.

(** Events the server sends to clients. *)
Inductive ServerEvent :=
  | UserJoined (userId username : string) (users : list Member)
  | RoomJoined (roomId : string) (users : list Member)
      (messages : list ChatMessage) (isVideoCall : bool)
  | NewMessage (m : ChatMessage)
  | RelayedOffer (offer : RTCSessionDescriptionInit) (fromUserId : string)
  | RelayedAnswer (answer : RTCSessionDescriptionInit) (fromUserId : string)
  | RelayedIceCandidate (cand : RTCIceCandidateInit) (fromUserId : string)
  | VideoCallStarted (initiatorId username : string)
  | VideoCallEnded (userId : string)
  | UserLeft (userId username : string) (users : list Member).

(** ** The server: registry and relay *)

Module Server.

(** A value of the [rooms] map. *)
Record Room := {
  room_id : string;
  room_users : list (string * Member);
  room_messages : list ChatMessage;
  room_isVideoCall : bool
}.

(** A value of the [users] map. *)
Record UserEntry := {
  user_roomId : string;
  user_username : string
}.

(** The two registries of [server.js], and the channel membership kept by
    the Socket.IO adapter: for every connected socket the set of channels
    ("rooms" of Socket.IO) it is in.  A socket is put in the channel named
    by its own id when it connects, [socket.join] adds a channel, and a
    closing socket leaves all of them before its disconnect handler
    runs. *)
Record State := {
  rooms : gmap string Room;
  users : gmap string UserEntry;
  sockets : gmap string (gset string)
}.

Definition init : State :=
  {| rooms := ∅; users := ∅; sockets := ∅ |}.

(** How an emit is addressed. *)
Inductive Target :=
  | ToSocket (sid : string)                  (* socket.emit(...) *)
  | ToChannelExcept (channel sender : string)  (* socket.to(channel).emit(...) *)
  | ToChannel (channel : string).            (* io.to(channel).emit(...) *)

Record Emit := {
  target : Target;
  event : ServerEvent
}.

(** Values the environment supplies to a handler. *)
Record Env := {
  now : Z;          (* new Date() *)
  uuid : string     (* uuidv4() *)
}.

Definition connected (st : State) (sid : string) : bool :=
  bool_decide (is_Some (sockets st !! sid)).

(** The sockets in a channel. *)
Definition in_channel (st : State) (channel : string) : gset string :=
  dom (filter (λ kv : string * gset string, channel ∈ kv.2) (sockets st)).

(** The connections that receive an emit.  The broadcast operator made by
    [socket.to] carries the sender's own channel as its exception: the
    sockets in the addressed channel receive the event unless they are in
    the channel named by the sender's id. *)
Definition recipients (st : State) (t : Target) : gset string :=
  match t with
  | ToSocket sid => {[ sid ]}
  | ToChannelExcept channel sender =>
      in_channel st channel ∖ in_channel st sender
  | ToChannel channel => in_channel st channel
  end.

(** [socket.join(channel)] *)
Definition socket_join (sid channel : string) (st : State) : State :=
  {| rooms := rooms st;
     users := users st;
     sockets := alter (λ cs, {[ channel ]} ∪ cs) sid (sockets st) |}.

(** [Array.from(room.users.values())] for the room stored under [roomId],
    the empty list when there is no such room. *)
Definition membership (st : State) (roomId : string) : list Member :=
  match rooms st !! roomId with
  | Some room => JsMap.values (room_users room)
  | None => []
  end.

(** [socket.on('join-room', ...)] *)
Definition on_join_room (sid : string) (roomId username : string)
    (isVideoCall : option bool) (env : Env) (st : State) : State * list Emit :=
  let room :=
    match rooms st !! roomId with
    | Some room => room
    | None =>
        {| room_id := roomId;
           room_users := [];
           room_messages := [];
           room_isVideoCall := default false isVideoCall |}
    end in
  let room' :=
    {| room_id := room_id room;
       room_users :=
         JsMap.set sid
           {| member_id := sid; member_username := username;
              member_joinedAt := now env |}
           (room_users room);
       room_messages := room_messages room;
       room_isVideoCall := room_isVideoCall room |} in
  let st1 :=
    {| rooms := <[ roomId := room' ]> (rooms st);
       users := <[ sid := {| user_roomId := roomId;
                             user_username := username |} ]> (users st);
       sockets := sockets st |} in
  let st2 := socket_join sid roomId st1 in
  (st2,
   [ {| target := ToChannelExcept roomId sid;
        event := UserJoined sid username (JsMap.values (room_users room')) |};
     {| target := ToSocket sid;
        event := RoomJoined roomId (JsMap.values (room_users room'))
                   (room_messages room') (room_isVideoCall room') |} ]).

(** [socket.on('send-message', ...)] *)
Definition on_send_message (sid : string) (message : string) (env : Env)
    (st : State) : State * list Emit :=
  match users st !! sid with
  | None => (st, [])
  | Some user =>
      match rooms st !! user_roomId user with
      | None => (st, [])
      | Some room =>
          let messageData :=
            {| msg_id := uuid env;
               msg_username := user_username user;
               msg_message := message;
               msg_timestamp := now env;
               msg_userId := sid |} in
          let room' :=
            {| room_id := room_id room;
               room_users := room_users room;
               room_messages := room_messages room ++ [messageData];
               room_isVideoCall := room_isVideoCall room |} in
          ({| rooms := <[ user_roomId user := room' ]> (rooms st);
              users := users st;
              sockets := sockets st |},
           [ {| target := ToChannel (user_roomId user);
                event := NewMessage messageData |} ])
      end
  end.

(** [socket.on('webrtc-offer', ...)], ['webrtc-answer'],
    ['webrtc-ice-candidate'] *)
Definition on_webrtc_offer (sid targetUserId : string)
    (offer : RTCSessionDescriptionInit) (st : State) : State * list Emit :=
  (st, [ {| target := ToChannelExcept targetUserId sid;
            event := RelayedOffer offer sid |} ]).

Definition on_webrtc_answer (sid targetUserId : string)
    (answer : RTCSessionDescriptionInit) (st : State) : State * list Emit :=
  (st, [ {| target := ToChannelExcept targetUserId sid;
            event := RelayedAnswer answer sid |} ]).

Definition on_webrtc_ice_candidate (sid targetUserId : string)
    (cand : RTCIceCandidateInit) (st : State) : State * list Emit :=
  (st, [ {| target := ToChannelExcept targetUserId sid;
            event := RelayedIceCandidate cand sid |} ]).

(** [socket.on('start-video-call', ...)] and ['end-video-call'] *)
Definition on_start_video_call (sid : string) (st : State) : State * list Emit :=
  match users st !! sid with
  | None => (st, [])
  | Some user =>
      (st, [ {| target := ToChannelExcept (user_roomId user) sid;
                event := VideoCallStarted sid (user_username user) |} ])
  end.

Definition on_end_video_call (sid : string) (st : State) : State * list Emit :=
  match users st !! sid with
  | None => (st, [])
  | Some user =>
      (st, [ {| target := ToChannelExcept (user_roomId user) sid;
                event := VideoCallEnded sid |} ])
  end.

(** [socket.on('disconnect', ...)] *)
Definition on_disconnect (sid : string) (st : State) : State * list Emit :=
  match users st !! sid with
  | None => (st, [])
  | Some user =>
      match rooms st !! user_roomId user with
      | None =>
          ({| rooms := rooms st; users := delete sid (users st);
              sockets := sockets st |}, [])
      | Some room =>
          let room' :=
            {| room_id := room_id room;
               room_users := JsMap.delete sid (room_users room);
               room_messages := room_messages room;
               room_isVideoCall := room_isVideoCall room |} in
          if decide (JsMap.size (room_users room') = 0) then
            ({| rooms := delete (user_roomId user) (rooms st);
                users := delete sid (users st);
                sockets := sockets st |}, [])
          else
            ({| rooms := <[ user_roomId user := room' ]> (rooms st);
                users := delete sid (users st);
                sockets := sockets st |},
             [ {| target := ToChannelExcept (user_roomId user) sid;
                  event := UserLeft sid (user_username user)
                             (JsMap.values (room_users room')) |} ])
      end
  end.

(** What reaches the server: a new transport connection, an event from a
    socket, or the close of a socket. *)
Inductive Input :=
  | Connection (sid : string)
  | On (sid : string) (ev : ClientEvent) (env : Env)
  | Disconnect (sid : string).

Definition dispatch (sid : string) (ev : ClientEvent) (env : Env)
    (st : State) : State * list Emit :=
  match ev with
  | JoinRoom roomId username isVideoCall =>
      on_join_room sid roomId username isVideoCall env st
  | SendMessage message => on_send_message sid message env st
  | WebrtcOffer t offer => on_webrtc_offer sid t offer st
  | WebrtcAnswer t answer => on_webrtc_answer sid t answer st
  | WebrtcIceCandidate t cand => on_webrtc_ice_candidate sid t cand st
  | StartVideoCall => on_start_video_call sid st
  | EndVideoCall => on_end_video_call sid st
  end.

(** One input processed to completion.  Handlers exist per connected
    socket (they are registered inside [io.on('connection')]), and the
    transport gives every live connection its own identifier. *)
Definition step (st : State) (i : Input) : State * list Emit :=
  match i with
  | Connection sid =>
      if connected st sid then (st, [])
      else ({| rooms := rooms st; users := users st;
               sockets := <[ sid := {[ sid ]} ]> (sockets st) |}, [])
  | On sid ev env =>
      if connected st sid then dispatch sid ev env st else (st, [])
  | Disconnect sid =>
      if connected st sid then
        on_disconnect sid
          {| rooms := rooms st; users := users st;
             sockets := delete sid (sockets st) |}
      else (st, [])
  end.

(** The state after a sequence of inputs, and everything emitted. *)
Fixpoint run (st : State) (ins : list Input) : State * list Emit :=
  match ins with
  | [] => (st, [])
  | i :: ins' =>
      let '(st1, out1) := step st i in
      let '(st2, out2) := run st1 ins' in
      (st2, out1 ++ out2)
  end.

Definition state_after (ins : list Input) : State := (run init ins).1.

(** The connection identifiers that are keys of a room's [users] map. *)
Definition member_ids (st : State) (roomId : string) : list string :=
  match rooms st !! roomId with
  | Some room => JsMap.keys (room_users room)
  | None => []
  end.

End Server.

(** ** The client: the session coordinator of [useWebRTC]

    Every handler is run to completion: the platform calls it awaits
    ([setRemoteDescription], [createAnswer], [setLocalDescription],
    [createOffer], [addIceCandidate]) are taken to settle before the next
    event is handled.  [toggleMute] and [toggleVideo] only flip the
    [enabled] flag of a local track and are not part of the embedding. *)

Module Client.

Record MediaStream := {
  stream_id : string;
  stream_tracks : list string
}.

(** A method call made on an [RTCPeerConnection]. *)
Inductive RtcCall :=
  | AddTrack (track stream : string)
  | CreateOffer
  | CreateAnswer
  | SetLocalDescription (d : RTCSessionDescriptionInit)
  | SetRemoteDescription (d : RTCSessionDescriptionInit)
  | AddIceCandidate (cand : RTCIceCandidateInit)
  | Close.

#[global] Instance SdpType_eq_dec : EqDecision SdpType.
Proof. solve_decision. Defined.
#[global] Instance RTCSessionDescriptionInit_eq_dec :
  EqDecision RTCSessionDescriptionInit.
Proof. solve_decision. Defined.
#[global] Instance RTCIceCandidateInit_eq_dec : EqDecision RTCIceCandidateInit.
Proof. solve_decision. Defined.
#[global] Instance RtcCall_eq_dec : EqDecision RtcCall.
Proof. solve_decision. Defined.

(** The platform object made by [new RTCPeerConnection(iceServers)]: the
    [userId] its [ontrack] and [onicecandidate] callbacks close over, and
    the calls made on it so far, oldest first. *)
Record RTCPeerConnection := {
  rtc_userId : string;
  rtc_calls : list RtcCall
}.

(** [interface PeerConnection]; [connection] is a reference into the store
    of platform objects. *)
Record PeerConnection := {
  userId : string;
  connection : nat
}.

Record State := {
  socket : option string;                      (* the socket's id, or null *)
  isCallActive : bool;
  peers : list (string * PeerConnection);
  localStream : option MediaStream;
  remoteStreams : list (string * MediaStream);
  localStreamRef : option MediaStream;
  peersRef : list (string * PeerConnection);
  stopped : list string;                       (* tracks that were stopped *)
  connections : list RTCPeerConnection;        (* store of platform objects *)
  outbox : list ClientEvent                    (* socket.emit, in order *)
}.

Definition init (sock : option string) : State :=
  {| socket := sock; isCallActive := false; peers := [];
     localStream := None; remoteStreams := []; localStreamRef := None;
     peersRef := []; stopped := []; connections := []; outbox := [] |}.

Definition with_connections (f : list RTCPeerConnection → list RTCPeerConnection)
    (st : State) : State :=
  {| socket := socket st; isCallActive := isCallActive st; peers := peers st;
     localStream := localStream st; remoteStreams := remoteStreams st;
     localStreamRef := localStreamRef st; peersRef := peersRef st;
     stopped := stopped st; connections := f (connections st);
     outbox := outbox st |}.

Definition with_peersRef (f : list (string * PeerConnection) → list (string * PeerConnection))
    (st : State) : State :=
  {| socket := socket st; isCallActive := isCallActive st; peers := peers st;
     localStream := localStream st; remoteStreams := remoteStreams st;
     localStreamRef := localStreamRef st; peersRef := f (peersRef st);
     stopped := stopped st; connections := connections st;
     outbox := outbox st |}.

(** [setPeers(m)] *)
Definition setPeers (m : list (string * PeerConnection)) (st : State) : State :=
  {| socket := socket st; isCallActive := isCallActive st; peers := m;
     localStream := localStream st; remoteStreams := remoteStreams st;
     localStreamRef := localStreamRef st; peersRef := peersRef st;
     stopped := stopped st; connections := connections st;
     outbox := outbox st |}.

(** [setRemoteStreams(prev => f(prev))] *)
Definition setRemoteStreams (f : list (string * MediaStream) → list (string * MediaStream))
    (st : State) : State :=
  {| socket := socket st; isCallActive := isCallActive st; peers := peers st;
     localStream := localStream st; remoteStreams := f (remoteStreams st);
     localStreamRef := localStreamRef st; peersRef := peersRef st;
     stopped := stopped st; connections := connections st;
     outbox := outbox st |}.

(** [if (socket) socket.emit(ev)] *)
Definition emit (ev : ClientEvent) (st : State) : State :=
  match socket st with
  | None => st
  | Some _ =>
      {| socket := socket st; isCallActive := isCallActive st; peers := peers st;
         localStream := localStream st; remoteStreams := remoteStreams st;
         localStreamRef := localStreamRef st; peersRef := peersRef st;
         stopped := stopped st; connections := connections st;
         outbox := outbox st ++ [ev] |}
  end.

(** A method call on the platform object behind a reference. *)
Definition record_call (c : RtcCall) (pc : RTCPeerConnection) : RTCPeerConnection :=
  {| rtc_userId := rtc_userId pc; rtc_calls := rtc_calls pc ++ [c] |}.

Definition invoke (h : nat) (c : RtcCall) (st : State) : State :=
  with_connections (alter (record_call c) h) st.

(** [createPeerConnection(userId)]: returns the new object's reference. *)
Definition createPeerConnection (user : string) (st : State) : nat * State :=
  let tracks :=
    match localStreamRef st with
    | Some stream => (λ t, AddTrack t (stream_id stream)) <$> stream_tracks stream
    | None => []
    end in
  (length (connections st),
   with_connections (λ cs, cs ++ [ {| rtc_userId := user; rtc_calls := tracks |} ]) st).

(** [startCall()]; [media] is what [getUserMedia] settles to, [None] when
    it rejects.  Showing the stream in the local video element is left
    out. *)
Definition startCall (media : option MediaStream) (st : State) : State :=
  match media with
  | None => st
  | Some stream =>
      emit StartVideoCall
        {| socket := socket st; isCallActive := true; peers := peers st;
           localStream := Some stream; remoteStreams := remoteStreams st;
           localStreamRef := Some stream; peersRef := peersRef st;
           stopped := stopped st; connections := connections st;
           outbox := outbox st |}
  end.

(** [endCall()] *)
Definition endCall (st : State) : State :=
  let st1 :=
    match localStreamRef st with
    | None => st
    | Some stream =>
        {| socket := socket st; isCallActive := isCallActive st; peers := peers st;
           localStream := None; remoteStreams := remoteStreams st;
           localStreamRef := None; peersRef := peersRef st;
           stopped := stopped st ++ stream_tracks stream;
           connections := connections st; outbox := outbox st |}
    end in
  let st2 :=
    foldl (λ s peer, invoke (connection peer) Close s) st1
      (JsMap.values (peersRef st1)) in
  emit EndVideoCall
    {| socket := socket st2; isCallActive := false; peers := [];
       localStream := localStream st2; remoteStreams := [];
       localStreamRef := localStreamRef st2; peersRef := [];
       stopped := stopped st2; connections := connections st2;
       outbox := outbox st2 |}.

(** [handleOffer(data)]; [answer] is what [createAnswer] settles to. *)
Definition handleOffer (answer : RTCSessionDescriptionInit)
    (offer : RTCSessionDescriptionInit) (fromUserId : string)
    (st : State) : State :=
  let '(pc, st1) := createPeerConnection fromUserId st in
  let st2 :=
    with_peersRef
      (JsMap.set fromUserId {| userId := fromUserId; connection := pc |}) st1 in
  let st3 := setPeers (peersRef st2) st2 in
  let st4 := invoke pc (SetRemoteDescription offer) st3 in
  let st5 := invoke pc CreateAnswer st4 in
  let st6 := invoke pc (SetLocalDescription answer) st5 in
  emit (WebrtcAnswer fromUserId answer) st6.

(** [handleAnswer(data)] *)
Definition handleAnswer (answer : RTCSessionDescriptionInit)
    (fromUserId : string) (st : State) : State :=
  match JsMap.get fromUserId (peersRef st) with
  | Some peer => invoke (connection peer) (SetRemoteDescription answer) st
  | None => st
  end.

(** [handleIceCandidate(data)] *)
Definition handleIceCandidate (cand : RTCIceCandidateInit)
    (fromUserId : string) (st : State) : State :=
  match JsMap.get fromUserId (peersRef st) with
  | Some peer => invoke (connection peer) (AddIceCandidate cand) st
  | None => st
  end.

(** [initiateCall(targetUserId)]; [offer] is what [createOffer] settles
    to. *)
Definition initiateCall (offer : RTCSessionDescriptionInit)
    (targetUserId : string) (st : State) : State :=
  let '(pc, st1) := createPeerConnection targetUserId st in
  let st2 :=
    with_peersRef
      (JsMap.set targetUserId {| userId := targetUserId; connection := pc |})
      st1 in
  let st3 := setPeers (peersRef st2) st2 in
  let st4 := invoke pc CreateOffer st3 in
  let st5 := invoke pc (SetLocalDescription offer) st4 in
  emit (WebrtcOffer targetUserId offer) st5.

(** [socket.on('video-call-started', ...)] *)
Definition on_video_call_started (offer : RTCSessionDescriptionInit)
    (initiatorId : string) (st : State) : State :=
  if isCallActive st && negb (bool_decide (Some initiatorId = socket st))
  then initiateCall offer initiatorId st
  else st.

(** [socket.on('user-joined', ...)] *)
Definition on_user_joined (offer : RTCSessionDescriptionInit)
    (user : string) (st : State) : State :=
  if isCallActive st then initiateCall offer user st else st.

(** [socket.on('user-left', ...)] *)
Definition on_user_left (user : string) (st : State) : State :=
  match JsMap.get user (peersRef st) with
  | Some peer =>
      let st1 := invoke (connection peer) Close st in
      let st2 := with_peersRef (JsMap.delete user) st1 in
      let st3 := setPeers (peersRef st2) st2 in
      setRemoteStreams (JsMap.delete user) st3
  | None => st
  end.

(** [peerConnection.ontrack] and [peerConnection.onicecandidate] of the
    object behind reference [h]. *)
Definition ontrack (h : nat) (remoteStream : MediaStream) (st : State) : State :=
  match connections st !! h with
  | Some pc => setRemoteStreams (JsMap.set (rtc_userId pc) remoteStream) st
  | None => st
  end.

Definition onicecandidate (h : nat) (cand : option RTCIceCandidateInit)
    (st : State) : State :=
  match connections st !! h, cand with
  | Some pc, Some c => emit (WebrtcIceCandidate (rtc_userId pc) c) st
  | _, _ => st
  end.

(** The socket listeners installed by the hook's effect; nothing is
    installed while [socket] is null, and the hook listens to no other
    event.  [created] is the description the platform produces if the
    handler asks for one. *)
Definition on_server_event (created : RTCSessionDescriptionInit)
    (ev : ServerEvent) (st : State) : State :=
  match socket st with
  | None => st
  | Some _ =>
      match ev with
      | RelayedOffer offer fromUserId => handleOffer created offer fromUserId st
      | RelayedAnswer answer fromUserId => handleAnswer answer fromUserId st
      | RelayedIceCandidate cand fromUserId => handleIceCandidate cand fromUserId st
      | VideoCallStarted initiatorId _ => on_video_call_started created initiatorId st
      | UserJoined user _ _ => on_user_joined created user st
      | UserLeft user _ _ => on_user_left user st
      | RoomJoined _ _ _ _ | NewMessage _ | VideoCallEnded _ => st
      end
  end.

(** *** Observations on a peer link *)

Definition is_set_local (c : RtcCall) : bool :=
  match c with SetLocalDescription _ => true | _ => false end.
Definition is_set_remote (c : RtcCall) : bool :=
  match c with SetRemoteDescription _ => true | _ => false end.

Definition has_local_description (pc : RTCPeerConnection) : bool :=
  existsb is_set_local (rtc_calls pc).
Definition has_remote_description (pc : RTCPeerConnection) : bool :=
  existsb is_set_remote (rtc_calls pc).
Definition closed (pc : RTCPeerConnection) : bool :=
  bool_decide (Close ∈ rtc_calls pc).

(** The platform object of the link to [user], if the coordinator holds
    one. *)
Definition link (st : State) (user : string) : option RTCPeerConnection :=
  peer ← JsMap.get user (peersRef st);
  connections st !! connection peer.

(** Connected: a link exists, it is open, and both descriptions are set. *)
Definition link_connected (st : State) (user : string) : bool :=
  match link st user with
  | Some pc =>
      has_local_description pc && has_remote_description pc && negb (closed pc)
  | None => false
  end.

(** The candidates handed to [addIceCandidate] of a platform object. *)
Definition candidates_added (pc : RTCPeerConnection) : list RTCIceCandidateInit :=
  omap (λ c, match c with AddIceCandidate cand => Some cand | _ => None end)
    (rtc_calls pc).

(** The targets of the offers in an outbox. *)
Definition offers_sent (out : list ClientEvent) : list string :=
  omap (λ ev, match ev with WebrtcOffer t _ => Some t | _ => None end) out.

End Client.

(** ** What the claims speak about *)

Module Registry.
Import Server.

(** What holds of the registry and of the channel table in every state the
    server can reach. *)
Record invariant (st : State) : Prop := {
  (* a live socket is in the channel named by its own id *)
  inv_own_channel : ∀ s cs, sockets st !! s = Some cs → s ∈ cs;
  (* a connection with a [users] entry is live, is in the channel of the
     room the entry names, and is a key of that room's [users] map *)
  inv_user : ∀ s u, users st !! s = Some u →
    (∃ cs, sockets st !! s = Some cs ∧ user_roomId u ∈ cs) ∧
    (∃ room, rooms st !! user_roomId u = Some room ∧
             is_Some (JsMap.get s (room_users room)));
  (* a stored room has a member *)
  inv_nonempty : ∀ r room, rooms st !! r = Some room → room_users room ≠ [];
  (* a channel holds the socket it is named after and sockets that joined
     the room of that name *)
  inv_channel : ∀ t cs c, sockets st !! t = Some cs → c ∈ cs →
    c = t ∨ ∃ room, rooms st !! c = Some room ∧
                    is_Some (JsMap.get t (room_users room))
}.


(** The [fromUserId] of a relayed signaling message. *)
Definition from_user (ev : ServerEvent) : option string :=
  match ev with
  | RelayedOffer _ from | RelayedAnswer _ from | RelayedIceCandidate _ from =>
      Some from
  | _ => None
  end.

(** The target of a directed signaling message, and the event the relay
    makes of it for a given sender. *)
Definition signaling_target (ev : ClientEvent) : option string :=
  match ev with
  | WebrtcOffer t _ | WebrtcAnswer t _ | WebrtcIceCandidate t _ => Some t
  | _ => None
  end.

Definition relayed (sender : string) (ev : ClientEvent) : option ServerEvent :=
  match ev with
  | WebrtcOffer _ offer => Some (RelayedOffer offer sender)
  | WebrtcAnswer _ answer => Some (RelayedAnswer answer sender)
  | WebrtcIceCandidate _ cand => Some (RelayedIceCandidate cand sender)
  | _ => None
  end.

(** Everything the server emits on event [ev] of connection [a] reaches
    connection [b] and no other, and names [a] as its sender. *)
Definition delivered_only_to (st : State) (a b : string) (ev : ClientEvent)
    (env : Env) : Prop :=
  ∀ e, e ∈ (step st (On a ev env)).2 →
    recipients (step st (On a ev env)).1 (target e) = {[ b ]} ∧
    from_user (event e) = Some a.

(** The entry written by a join. *)
Definition joined_member (sid username : string) (env : Env) : Member :=
  {| member_id := sid; member_username := username;
     member_joinedAt := now env |}.

(** The message built by the send-message handler. *)
Definition message_data (sid : string) (u : UserEntry) (message : string)
    (env : Env) : ChatMessage :=
  {| msg_id := uuid env; msg_username := user_username u;
     msg_message := message; msg_timestamp := now env; msg_userId := sid |}.

Definition with_messages (ms : list ChatMessage) (room : Room) : Room :=
  {| room_id := room_id room; room_users := room_users room;
     room_messages := ms; room_isVideoCall := room_isVideoCall room |}.

Definition with_users (us : list (string * Member)) (room : Room) : Room :=
  {| room_id := room_id room; room_users := us;
     room_messages := room_messages room;
     room_isVideoCall := room_isVideoCall room |}.

(** What the server receives when [leaveRoom] of [pages/index.tsx] runs
    on the client of connection [s]: end-video-call if a call is active,
    then the close of the socket ([socket.disconnect()]), then a new
    connection ([socket.connect()]) with an identifier of its own. *)
Definition leaveRoom_inputs (callActive : bool) (s s' : string) (env : Env)
    : list Input :=
  (if callActive then [On s EndVideoCall env] else []) ++
  [Disconnect s; Connection s'].

(** *** Sample runs *)

Definition at_time (t : Z) : Env :=
  {| now := t; uuid := "3f2b8c1e-0000-4000-8000-000000000001" |}.

(** One connection joins room A and then room B. *)
Definition double_join : list Input :=
  [ Connection "s1";
    On "s1" (JoinRoom "A" "ann" None) (at_time 1);
    On "s1" (JoinRoom "B" "ann" None) (at_time 2) ].

(** Two connections in one room. *)
Definition two_in_room : list Input :=
  [ Connection "s1"; Connection "s2";
    On "s1" (JoinRoom "A" "ann" (Some true)) (at_time 1);
    On "s2" (JoinRoom "A" "bob" None) (at_time 2) ].

(** Three connections in the room "lobby"; the third then also joins a
    room whose id is the second connection's id. *)
Definition shadow_room : list Input :=
  [ Connection "s1"; Connection "s2"; Connection "s3";
    On "s1" (JoinRoom "lobby" "ann" None) (at_time 1);
    On "s2" (JoinRoom "lobby" "bob" None) (at_time 2);
    On "s3" (JoinRoom "lobby" "eve" None) (at_time 3);
    On "s3" (JoinRoom "s2" "eve" None) (at_time 4) ].

(** The first connection joins a room whose id is the second connection's
    id and then the room "lobby"; the second connection joins "lobby". *)
Definition shadowed_leave : list Input :=
  [ Connection "s1"; Connection "s2";
    On "s1" (JoinRoom "s2" "ann" None) (at_time 1);
    On "s1" (JoinRoom "lobby" "ann" None) (at_time 2);
    On "s2" (JoinRoom "lobby" "bob" None) (at_time 3) ].

Definition sample_offer : RTCSessionDescriptionInit :=
  {| sdp_type := SdpOffer; sdp := "v=0 offer" |}.
Definition sample_answer : RTCSessionDescriptionInit :=
  {| sdp_type := SdpAnswer; sdp := "v=0 answer" |}.
Definition sample_candidate : RTCIceCandidateInit :=
  {| candidate := "candidate:1 1 udp 2122260223 192.0.2.1 54321 typ host" |}.

End Registry.

Module Coordinator.
Import Client.

(** The calls that attach the local tracks to a new peer connection. *)
Definition local_tracks (st : State) : list RtcCall :=
  match localStreamRef st with
  | Some stream => (λ t, AddTrack t (stream_id stream)) <$> stream_tracks stream
  | None => []
  end.

(** A candidate from [user] that is delivered before the offer of [user]
    is in the end handed to the peer connection of the link to [user]. *)
Definition candidate_survives (st : State) (cand : RTCIceCandidateInit)
    (user : string) (offer answer : RTCSessionDescriptionInit) : Prop :=
  let st1 := on_server_event answer (RelayedIceCandidate cand user) st in
  let st2 := on_server_event answer (RelayedOffer offer user) st1 in
  ∃ pc, link st2 user = Some pc ∧ cand ∈ candidates_added pc.

(** Starting a call makes a link to every listed member and sends each an
    offer. *)
Definition call_start_offers_all (st : State) (media : option MediaStream)
    (members : list string) : Prop :=
  let st' := startCall media st in
  ∀ m, m ∈ members →
    is_Some (JsMap.get m (peersRef st')) ∧ m ∈ offers_sent (outbox st').

(** *** Sample states *)

Definition camera : MediaStream :=
  {| stream_id := "local"; stream_tracks := ["audio0"; "video0"] |}.

(** A coordinator with socket id "s1" that has just started a call. *)
Definition in_call : State := startCall (Some camera) (init (Some "s1")).

(** The same coordinator after it has sent an offer to "s2" and received
    the answer: the link to "s2" is connected. *)
Definition linked : State :=
  handleAnswer Registry.sample_answer "s2"
    (initiateCall Registry.sample_offer "s2" in_call).

End Coordinator.

(** ** The REST listing and the shape of the registry *)

Module Listing.
Import Server.

(** An element of [users] in a room summary. *)
Record UserSummary := {
  sum_username : string;
  sum_joinedAt : Z
}.

(** An element of [roomList] of [GET /api/rooms]. *)
Record RoomSummary := {
  sum_id : string;
  sum_userCount : nat;
  sum_isVideoCall : bool;
  sum_users : list UserSummary
}.

(** The callback mapped over [rooms.values()]. *)
Definition room_summary (room : Room) : RoomSummary :=
  {| sum_id := room_id room;
     sum_userCount := JsMap.size (room_users room);
     sum_isVideoCall := room_isVideoCall room;
     sum_users :=
       (λ user, {| sum_username := member_username user;
                   sum_joinedAt := member_joinedAt user |})
         <$> JsMap.values (room_users room) |}.

(** [roomList] of [GET /api/rooms].  The list follows the iteration order
    of [rooms]; the finite map of the embedding keeps no insertion order,
    so only what does not depend on the order is stated of it. *)
Definition api_rooms (st : State) : list RoomSummary :=
  room_summary <$> (map_to_list (rooms st)).*2.

(** How the entries of the registry hang together. *)
Record entries_ok (st : State) : Prop := {
  (* a room is stored under its own id *)
  ok_room_id : ∀ r room, rooms st !! r = Some room → room_id room = r;
  (* no connection is listed twice in a room *)
  ok_nodup : ∀ r room, rooms st !! r = Some room →
    NoDup (JsMap.keys (room_users room));
  (* a member is stored under its own connection id *)
  ok_member_id : ∀ r room s m, rooms st !! r = Some room →
    JsMap.get s (room_users room) = Some m → member_id m = s;
  (* the display name of a [users] entry is the one of the membership entry
     in the room it names *)
  ok_username : ∀ s u, users st !! s = Some u →
    ∃ room m, rooms st !! user_roomId u = Some room ∧
      JsMap.get s (room_users room) = Some m ∧
      member_username m = user_username u
}.

(** The inputs that send the given texts from one connection, one after
    the other. *)
Definition sends (s : string) (texts : list (string * Env)) : list Input :=
  (λ te, On s (SendMessage te.1) te.2) <$> texts.

End Listing.

(** ** Runs of the session coordinator *)

Module Session.
Import Client.

(** What the coordinator reacts to: an event of the socket, the two call
    buttons, and the callbacks of a peer connection. *)
Inductive Input :=
  | FromServer (ev : ServerEvent) (created : RTCSessionDescriptionInit)
  | StartCall (media : option MediaStream)
  | EndCall
  | Track (h : nat) (remoteStream : MediaStream)
  | IceCandidate (h : nat) (cand : option RTCIceCandidateInit).

Definition step (st : State) (i : Input) : State :=
  match i with
  | FromServer ev created => on_server_event created ev st
  | StartCall media => startCall media st
  | EndCall => endCall st
  | Track h remoteStream => ontrack h remoteStream st
  | IceCandidate h cand => onicecandidate h cand st
  end.

Definition run (st : State) (ins : list Input) : State := foldl step st ins.

Definition state_after (sock : option string) (ins : list Input) : State :=
  run (init sock) ins.

(** What holds of the coordinator in every state it reaches. *)
Record well_formed (st : State) : Prop := {
  (* the React copies follow the refs *)
  wf_peers : peers st = peersRef st;
  wf_stream : localStream st = localStreamRef st;
  (* a call is active exactly while the local media are held *)
  wf_active : isCallActive st = true ↔ is_Some (localStreamRef st);
  (* the peer connection of a link was made for the user of the link *)
  wf_link : ∀ u peer, JsMap.get u (peersRef st) = Some peer →
    userId peer = u ∧
    ∃ pc, connections st !! connection peer = Some pc ∧ rtc_userId pc = u
}.

(** A coordinator with socket "s2" that answered an offer of "s1" without
    a call of its own. *)
Definition answered_idle : State :=
  handleOffer Registry.sample_answer Registry.sample_offer "s1"
    (init (Some "s2")).

(** Inputs after which a coordinator is in a call with a connected link to
    "s2", and after which it has, besides, sent an offer to "s3". *)
Definition linked_inputs : list Input :=
  [ StartCall (Some Coordinator.camera);
    FromServer (UserJoined "s2" "bob" []) Registry.sample_offer;
    FromServer (RelayedAnswer Registry.sample_answer "s2")
      Registry.sample_offer ].

Definition two_links_inputs : list Input :=
  linked_inputs ++
  [ FromServer (UserJoined "s3" "cy" []) Registry.sample_offer ].

End Session.

(** ** The chat page of [pages/index.tsx]

    The part of the page's state that the socket listeners write, and the
    listeners themselves. *)

Module Page.

(** [isCallActive] is the state of the hook the page uses; the last field
    says whether the page's own listeners for user-joined and user-left
    are still on the socket. *)
Record State := {
  isInRoom : bool;
  messages : list ChatMessage;
  users : list Member;
  isCallActive : bool;
  membershipListeners : bool
}.

Definition init : State :=
  {| isInRoom := false; messages := []; users := [];
     isCallActive := false; membershipListeners := true |}.

(** The listeners for room-joined, user-joined, user-left and new-message;
    the page listens to no other event. *)
Definition on_event (ev : ServerEvent) (p : State) : State :=
  match ev with
  | RoomJoined _ us ms _ =>
      {| isInRoom := true; messages := ms; users := us;
         isCallActive := isCallActive p;
         membershipListeners := membershipListeners p |}
  | UserJoined _ _ us | UserLeft _ _ us =>
      if membershipListeners p then
        {| isInRoom := isInRoom p; messages := messages p; users := us;
           isCallActive := isCallActive p;
           membershipListeners := membershipListeners p |}
      else p
  | NewMessage m =>
      {| isInRoom := isInRoom p; messages := messages p ++ [m];
         users := users p; isCallActive := isCallActive p;
         membershipListeners := membershipListeners p |}
  | _ => p
  end.

(** The hook's effect runs again: its cleanup calls
    [socket.off('user-joined')] and [socket.off('user-left')] without a
    handler, which takes every listener of these events off the socket,
    the page's too; the effect then puts back the hook's own listeners
    only, and the page's effect, which depends on the socket alone, does
    not run again. *)
Definition hook_effect_rerun (p : State) : State :=
  {| isInRoom := isInRoom p; messages := messages p; users := users p;
     isCallActive := isCallActive p; membershipListeners := false |}.

(** [setIsCallActive(b)]: [isCallActive] is a dependency of the hook's
    effect, which runs again when the value changes. *)
Definition setIsCallActive (b : bool) (p : State) : State :=
  if bool_decide (isCallActive p = b) then p
  else hook_effect_rerun
         {| isInRoom := isInRoom p; messages := messages p; users := users p;
            isCallActive := b; membershipListeners := membershipListeners p |}.

(** What sending an event means for the page that sends it:
    start-video-call is sent by [startCall] once the media are granted,
    along with [setIsCallActive(true)], and end-video-call by [endCall],
    along with [setIsCallActive(false)]. *)
Definition own_action (ev : ClientEvent) (p : State) : State :=
  match ev with
  | StartVideoCall => setIsCallActive true p
  | EndVideoCall => setIsCallActive false p
  | _ => p
  end.

(** The events among [out] that reach connection [s], in the order
    emitted; [st] is the server state in which they are emitted. *)
Definition delivered (st : Server.State) (s : string)
    (out : list Server.Emit) : list ServerEvent :=
  omap (λ e, if decide (s ∈ Server.recipients st (Server.target e))
             then Some (Server.event e) else None) out.

(** The server takes one input and the page of connection [s] handles what
    reaches it; an event sent by [s] itself has had its effect on the page
    before.  The close of the socket of [s] is taken as a transport drop,
    which the page does not notice ([leaveRoom], which resets the page, is
    not part of this). *)
Definition watch_step (s : string) (sp : Server.State * State)
    (i : Server.Input) : Server.State * State :=
  let res := Server.step sp.1 i in
  let p1 :=
    match i with
    | Server.On t ev _ => if decide (t = s) then own_action ev sp.2 else sp.2
    | _ => sp.2
    end in
  (res.1, foldl (λ p ev, on_event ev p) p1 (delivered res.1 s res.2)).

Definition watch (s : string) (st : Server.State) (p : State)
    (ins : list Server.Input) : Server.State * State :=
  foldl (watch_step s) (st, p) ins.

(** Inputs that keep connection [s] in room [r] and in no other, keep the
    page's listeners on the socket, and keep the names of connections and
    rooms apart where [s] and [r] are concerned: [s] neither joins again
    nor disconnects nor starts or ends a call, nobody joins a room whose
    id is [s], and no connection has the id [r]. *)
Definition allowed (s r : string) (i : Server.Input) : Prop :=
  match i with
  | Server.Connection t => t ≠ r
  | Server.Disconnect t => t ≠ s
  | Server.On t (JoinRoom r' _ _) _ => t ≠ s ∧ r' ≠ s
  | Server.On t StartVideoCall _ | Server.On t EndVideoCall _ => t ≠ s
  | Server.On _ _ _ => True
  end.

(** An input that is neither a join nor the close of connection [s]. *)
Definition stays_on (s : string) (i : Server.Input) : Prop :=
  match i with
  | Server.On t (JoinRoom _ _ _) _ => t ≠ s
  | Server.Disconnect t => t ≠ s
  | _ => True
  end.

(** Connection [s] is live and in the channels [s] and [r] only. *)
Definition placed (s r : string) (st : Server.State) : Prop :=
  ∃ cs, Server.sockets st !! s = Some cs ∧ ∀ c, c ∈ cs ↔ c = s ∨ c = r.

(** The page of [s] shows room [r] as the registry has it. *)
Record follows (s r : string) (st : Server.State) (p : State) : Prop := {
  fl_inv : Registry.invariant st;
  fl_user : ∃ u, Server.users st !! s = Some u ∧ Server.user_roomId u = r;
  fl_channels : ∃ cs, Server.sockets st !! s = Some cs ∧
                      ∀ c, c ∈ cs ↔ c = s ∨ c = r;
  fl_no_room : Server.rooms st !! s = None;
  fl_no_socket : Server.sockets st !! r = None;
  fl_listening : membershipListeners p = true;
  fl_view : ∃ room, Server.rooms st !! r = Some room ∧
              isInRoom p = true ∧
              messages p = Server.room_messages room ∧
              users p = JsMap.values (Server.room_users room)
}.

End Page.

(** ** Facts about insertion-ordered maps *)

Module JsMapFacts.
Import JsMap.
Section facts.
Context {V : Type}.
Implicit Types (m : list (string * V)) (k : string) (v : V).

Lemma get_set_eq m k v : get k (set k v m) = Some v.
Proof.
  induction m as [|[k' v'] m IH]; simpl; repeat case_decide; simpl;
    repeat case_decide; congruence.
Qed.

Lemma get_set_ne m k k' v : k ≠ k' → get k' (set k v m) = get k' m.
Proof.
  intros Hne. induction m as [|[k0 v0] m IH]; simpl; repeat case_decide;
    simpl; repeat case_decide; congruence.
Qed.

Lemma get_delete_eq m k : get k (delete k m) = None.
Proof.
  induction m as [|[k' v'] m IH]; simpl; repeat case_decide; simpl;
    repeat case_decide; congruence.
Qed.

Lemma get_delete_ne m k k' : k ≠ k' → get k' (delete k m) = get k' m.
Proof.
  intros Hne. induction m as [|[k0 v0] m IH]; simpl; repeat case_decide;
    simpl; repeat case_decide; congruence.
Qed.

Lemma set_nonempty m k v : set k v m ≠ [].
Proof. destruct m as [|[k' v'] m]; simpl; [|case_decide]; discriminate. Qed.

Lemma elem_of_keys m k : k ∈ keys m ↔ is_Some (get k m).
Proof.
  unfold keys. induction m as [|[k' v'] m IH]; simpl.
  - split; [intros H; inversion H | intros [? ?]; discriminate].
  - rewrite elem_of_cons, IH. case_decide; subst.
    + split; eauto.
    + split; [intros [?|?]; [congruence | done] | eauto].
Qed.

Lemma not_elem_of_keys m k : k ∉ keys m ↔ get k m = None.
Proof. rewrite elem_of_keys, <- eq_None_not_Some. done. Qed.

Lemma keys_delete m k : keys (delete k m) = filter (λ k', k' ≠ k) (keys m).
Proof.
  unfold keys. induction m as [|[k' v'] m IH]; simpl; [done|].
  rewrite filter_cons. simpl.
  destruct (decide (k = k')) as [->|Hne].
  - rewrite decide_False by (intros H; by apply H). done.
  - rewrite decide_True by congruence. simpl. by f_equal.
Qed.

(** Deleting the only key of a map leaves it empty. *)
Lemma delete_only_key m k : (∀ k', k' ∈ keys m → k' = k) → delete k m = [].
Proof.
  unfold keys. induction m as [|[k' v'] m IH]; simpl; intros Hall; [done|].
  case_decide as Hk.
  - apply IH. intros k0 Hk0. apply Hall. by right.
  - exfalso. apply Hk. symmetry. apply Hall. by left.
Qed.

Lemma size_set_present m k v : is_Some (get k m) → size (set k v m) = size m.
Proof.
  unfold size. induction m as [|[k' v'] m IH]; simpl.
  - intros [? ?]; discriminate.
  - case_decide; simpl; [done|]. intros. f_equal. auto.
Qed.

Lemma size_set_absent m k v : get k m = None → size (set k v m) = S (size m).
Proof.
  unfold size. induction m as [|[k' v'] m IH]; simpl; [done|].
  case_decide; simpl; [discriminate|]. intros. f_equal. auto.
Qed.

Lemma keys_set_present m k v : is_Some (get k m) → keys (set k v m) = keys m.
Proof.
  unfold keys. induction m as [|[k' v'] m IH]; simpl.
  - intros [? ?]; discriminate.
  - case_decide; simpl; [by subst|]. intros. f_equal. auto.
Qed.

Lemma keys_set_absent m k v : get k m = None → keys (set k v m) = keys m ++ [k].
Proof.
  unfold keys. induction m as [|[k' v'] m IH]; simpl; [done|].
  case_decide; simpl; [discriminate|]. intros. f_equal. auto.
Qed.

Lemma get_Some_values m k v : get k m = Some v → v ∈ values m.
Proof.
  unfold values. induction m as [|[k' v'] m IH]; simpl; [done|].
  case_decide.
  - intros [= ->]. by left.
  - intros Hget. right. auto.
Qed.

End facts.
End JsMapFacts.

(** ** The registry and the relay *)

Module RegistryFacts.
Import Server Registry.

Lemma elem_of_in_channel (st : State) (c t : string) :
  t ∈ in_channel st c ↔ ∃ cs, sockets st !! t = Some cs ∧ c ∈ cs.
Proof.
  unfold in_channel. rewrite elem_of_dom. unfold is_Some.
  setoid_rewrite map_lookup_filter_Some. simpl. naive_solver.
Qed.

Lemma connected_true (st : State) (s : string) :
  connected st s = true ↔ is_Some (sockets st !! s).
Proof. unfold connected. by rewrite bool_decide_eq_true. Qed.

Lemma connected_false (st : State) (s : string) :
  connected st s = false ↔ sockets st !! s = None.
Proof.
  unfold connected. rewrite bool_decide_eq_false, eq_None_not_Some. done.
Qed.

Lemma invariant_init : invariant init.
Proof. split; simpl; intros *; rewrite lookup_empty; discriminate. Qed.

Lemma invariant_connection (st : State) (s : string) :
  invariant st → sockets st !! s = None →
  invariant {| rooms := rooms st; users := users st;
               sockets := <[ s := {[ s ]} ]> (sockets st) |}.
Proof.
  intros [I1 I2 I3 I4] Hs. split; simpl.
  - intros t cs. rewrite lookup_insert. case_decide; subst.
    + intros [= <-]. set_solver.
    + apply I1.
  - intros t u Hu. pose proof (I2 t u Hu) as [(cs & Hcs & Hr) Hroom].
    split; [|done]. exists cs. rewrite lookup_insert_ne by congruence. done.
  - done.
  - intros t cs c. rewrite lookup_insert. case_decide; subst.
    + intros [= <-] Hc. left. set_solver.
    + apply I4.
Qed.

Lemma invariant_join (st : State) (s r name : string) (v : option bool) (env : Env) :
  invariant st → is_Some (sockets st !! s) →
  invariant (on_join_room s r name v env st).1.
Proof.
  intros [I1 I2 I3 I4] [cs0 Hs]. unfold on_join_room. simpl.
  set (room := match rooms st !! r with Some room => room | None => _ end).
  split; simpl.
  - intros t cs. rewrite lookup_alter. case_decide; subst.
    + rewrite Hs. simpl. intros [= <-]. apply elem_of_union_r. eauto.
    + apply I1.
  - intros t u. rewrite lookup_insert. case_decide; subst.
    + intros [= <-]. simpl. split.
      * exists ({[ r ]} ∪ cs0). rewrite lookup_alter_eq, Hs. simpl.
        split; [done|]. by apply elem_of_union_l, elem_of_singleton.
      * eexists. rewrite lookup_insert_eq. split; [done|]. simpl.
        rewrite JsMapFacts.get_set_eq. eauto.
    + intros Hu. pose proof (I2 t u Hu) as [(cs & Hcs & Hr) (rm & Hrm & Ht)].
      split.
      * exists cs. rewrite lookup_alter_ne by congruence. done.
      * destruct (decide (user_roomId u = r)) as [Heq|Hne].
        -- eexists. rewrite Heq, lookup_insert_eq. split; [done|]. simpl.
           rewrite JsMapFacts.get_set_ne by congruence.
           subst room. rewrite <- Heq, Hrm. done.
        -- exists rm. rewrite lookup_insert_ne by congruence. done.
  - intros r' rm. rewrite lookup_insert. case_decide; subst.
    + intros [= <-]. simpl. apply JsMapFacts.set_nonempty.
    + apply I3.
  - assert (Hkeep : ∀ t c, (c = t ∨ ∃ rm, rooms st !! c = Some rm ∧
               is_Some (JsMap.get t (room_users rm))) →
             c = t ∨ ∃ rm,
               <[ r := {| room_id := room_id room;
                          room_users := JsMap.set s (joined_member s name env)
                                          (room_users room);
                          room_messages := room_messages room;
                          room_isVideoCall := room_isVideoCall room |} ]>
                 (rooms st) !! c = Some rm ∧
               is_Some (JsMap.get t (room_users rm))).
    { intros t c [->|(rm & Hrm & Ht)]; [by left|]. right.
      destruct (decide (c = r)) as [->|Hne].
      - eexists. rewrite lookup_insert_eq. split; [done|]. simpl.
        destruct (decide (s = t)) as [->|Hst].
        + rewrite JsMapFacts.get_set_eq. eauto.
        + rewrite JsMapFacts.get_set_ne by done. subst room. by rewrite Hrm.
      - exists rm. rewrite lookup_insert_ne by congruence. done. }
    intros t cs c. rewrite lookup_alter. case_decide; subst.
    + rewrite Hs. simpl. intros [= <-] Hc.
      apply elem_of_union in Hc as [Hc|Hc].
      * apply elem_of_singleton in Hc as ->. right.
        eexists. rewrite lookup_insert_eq. split; [done|]. simpl.
        rewrite JsMapFacts.get_set_eq. eauto.
      * apply Hkeep. eapply I4; eauto.
    + intros Ht Hc. apply Hkeep. eapply I4; eauto.
Qed.

Lemma invariant_send_message (st : State) (s msg : string) (env : Env) :
  invariant st → invariant (on_send_message s msg env st).1.
Proof.
  intros Hinv. unfold on_send_message.
  destruct (users st !! s) as [u|] eqn:Hu; [|done].
  destruct (rooms st !! user_roomId u) as [room|] eqn:Hroom; [|done].
  destruct Hinv as [I1 I2 I3 I4]. split; simpl; [done| | |].
  - intros t u' Hu'. pose proof (I2 t u' Hu') as [Hch (rm & Hrm & Ht)].
    split; [done|].
    destruct (decide (user_roomId u' = user_roomId u)) as [Heq|Hne].
    + eexists. rewrite Heq, lookup_insert_eq. split; [done|]. simpl.
      rewrite Heq, Hroom in Hrm. by injection Hrm as ->.
    + exists rm. by rewrite lookup_insert_ne.
  - intros r rm. rewrite lookup_insert. case_decide; subst.
    + intros [= <-]. simpl. eauto.
    + apply I3.
  - intros t cs c Ht Hc. destruct (I4 t cs c Ht Hc) as [->|(rm & Hrm & Hm)];
      [by left|]. right.
    destruct (decide (c = user_roomId u)) as [->|Hne].
    + eexists. rewrite lookup_insert_eq. split; [done|]. simpl.
      rewrite Hroom in Hrm. by injection Hrm as ->.
    + exists rm. by rewrite lookup_insert_ne.
Qed.

(** The disconnect handler runs once the closing socket has left every
    channel. *)
Lemma invariant_disconnect (st : State) (s : string) :
  invariant st →
  invariant (on_disconnect s {| rooms := rooms st; users := users st;
                                sockets := delete s (sockets st) |}).1.
Proof.
  intros [I1 I2 I3 I4]. unfold on_disconnect. simpl.
  assert (Hsock : ∀ t cs, delete s (sockets st) !! t = Some cs →
                          t ≠ s ∧ sockets st !! t = Some cs).
  { intros t cs. rewrite lookup_delete. case_decide; [done|].
    intros Ht. split; [congruence | done]. }
  destruct (users st !! s) as [u|] eqn:Hu.
  2:{ split; simpl.
      - intros t cs Ht. apply Hsock in Ht as [_ Ht]. eauto.
      - intros t u' Hu'. pose proof (I2 t u' Hu') as [(cs & Hcs & Hr) Hrm].
        split; [|done]. exists cs. rewrite lookup_delete_ne; [done|].
        intros ->. congruence.
      - done.
      - intros t cs c Ht Hc. apply Hsock in Ht as [_ Ht]. eauto. }
  pose proof (I2 s u Hu) as [_ (room & Hroom & Hin)]. rewrite Hroom.
  assert (Huser : ∀ t u', delete s (users st) !! t = Some u' →
            t ≠ s ∧ (∃ cs, delete s (sockets st) !! t = Some cs ∧
                           user_roomId u' ∈ cs) ∧
            ∃ rm, rooms st !! user_roomId u' = Some rm ∧
                  is_Some (JsMap.get t (room_users rm))).
  { intros t u'. rewrite lookup_delete. case_decide; [done|]. intros Hu'.
    pose proof (I2 t u' Hu') as [(cs & Hcs & Hr) Hrm].
    split; [congruence|]. split; [|done].
    exists cs. by rewrite lookup_delete_ne. }
  case_decide as Hempty; simpl; split; simpl.
  - intros t cs Ht. apply Hsock in Ht as [_ Ht]. eauto.
  - intros t u' Hu'. apply Huser in Hu' as (Hne & Hch & rm & Hrm & Ht).
    split; [done|]. exists rm. split; [|done].
    rewrite lookup_delete_ne; [done|]. intros Heq.
    rewrite <- Heq, Hroom in Hrm. injection Hrm as <-.
    rewrite <- (JsMapFacts.get_delete_ne _ s t) in Ht by congruence.
    unfold JsMap.size in Hempty. apply length_zero_iff_nil in Hempty.
    rewrite Hempty in Ht. by destruct Ht.
  - intros r rm. rewrite lookup_delete. case_decide; [done|]. apply I3.
  - intros t cs c Ht Hc. apply Hsock in Ht as [Hne Ht].
    destruct (I4 t cs c Ht Hc) as [->|(rm & Hrm & Hm)]; [by left|]. right.
    exists rm. split; [|done]. rewrite lookup_delete_ne; [done|]. intros Heq.
    rewrite <- Heq, Hroom in Hrm. injection Hrm as <-.
    rewrite <- (JsMapFacts.get_delete_ne _ s t) in Hm by congruence.
    unfold JsMap.size in Hempty. apply length_zero_iff_nil in Hempty.
    rewrite Hempty in Hm. by destruct Hm.
  - intros t cs Ht. apply Hsock in Ht as [_ Ht]. eauto.
  - intros t u' Hu'. apply Huser in Hu' as (Hne & Hch & rm & Hrm & Ht).
    split; [done|].
    destruct (decide (user_roomId u' = user_roomId u)) as [Heq|Hr].
    + eexists. rewrite Heq, lookup_insert_eq. split; [done|]. simpl.
      rewrite Heq, Hroom in Hrm. injection Hrm as <-.
      by rewrite JsMapFacts.get_delete_ne by congruence.
    + exists rm. by rewrite lookup_insert_ne.
  - intros r rm. rewrite lookup_insert. case_decide; subst.
    + intros [= <-]. simpl. intros Hnil. apply Hempty.
      unfold JsMap.size. by rewrite Hnil.
    + apply I3.
  - intros t cs c Ht Hc. apply Hsock in Ht as [Hne Ht].
    destruct (I4 t cs c Ht Hc) as [->|(rm & Hrm & Hm)]; [by left|]. right.
    destruct (decide (c = user_roomId u)) as [->|Hr].
    + eexists. rewrite lookup_insert_eq. split; [done|]. simpl.
      rewrite Hroom in Hrm. injection Hrm as <-.
      by rewrite JsMapFacts.get_delete_ne by congruence.
    + exists rm. by rewrite lookup_insert_ne.
Qed.

Lemma invariant_step (st : State) (i : Input) :
  invariant st → invariant (step st i).1.
Proof.
  intros Hinv. destruct i as [s|s ev env|s]; simpl.
  - destruct (connected st s) eqn:Hc; [done|].
    apply connected_false in Hc. by apply invariant_connection.
  - destruct (connected st s) eqn:Hc; [|done].
    apply connected_true in Hc.
    destruct ev; simpl; try done.
    + by apply invariant_join.
    + by apply invariant_send_message.
    + unfold on_start_video_call. by destruct (users st !! s).
    + unfold on_end_video_call. by destruct (users st !! s).
  - destruct (connected st s) eqn:Hc; [|done].
    by apply invariant_disconnect.
Qed.

Lemma run_app (st : State) (ins1 ins2 : list Input) :
  run st (ins1 ++ ins2) =
  let '(st1, out1) := run st ins1 in
  let '(st2, out2) := run st1 ins2 in
  (st2, out1 ++ out2).
Proof.
  revert st. induction ins1 as [|i ins1 IH]; intros st; simpl.
  - by destruct (run st ins2).
  - destruct (step st i) as [st1 out1]. rewrite IH.
    destruct (run st1 ins1) as [st2 out2].
    destruct (run st2 ins2) as [st3 out3]. by rewrite app_assoc.
Qed.

Lemma run_cons_state (st : State) (i : Input) (ins : list Input) :
  (run st (i :: ins)).1 = (run (step st i).1 ins).1.
Proof.
  simpl. destruct (step st i) as [st1 out1]. simpl.
  by destruct (run st1 ins).
Qed.

Lemma invariant_run (st : State) (ins : list Input) :
  invariant st → invariant (run st ins).1.
Proof.
  revert st. induction ins as [|i ins IH]; intros st Hinv; simpl; [done|].
  pose proof (invariant_step st i Hinv) as Hstep.
  destruct (step st i) as [st1 out1]. simpl in Hstep.
  specialize (IH st1 Hstep). by destruct (run st1 ins).
Qed.

(** Every state the server reaches from its start satisfies the
    invariant. *)
Lemma invariant_state_after (ins : list Input) : invariant (state_after ins).
Proof. apply invariant_run, invariant_init. Qed.

Lemma membership_nil_iff (st : State) (r : string) :
  membership st r = [] ↔ member_ids st r = [].
Proof.
  unfold membership, member_ids, JsMap.values, JsMap.keys.
  destruct (rooms st !! r) as [room|]; [|done].
  destruct (room_users room); simpl; split; intros; done.
Qed.

Lemma elem_of_member_ids (st : State) (r s : string) :
  s ∈ member_ids st r ↔
  ∃ room, rooms st !! r = Some room ∧ is_Some (JsMap.get s (room_users room)).
Proof.
  unfold member_ids. destruct (rooms st !! r) as [room|].
  - rewrite JsMapFacts.elem_of_keys.
    split; [by eauto | by intros (room' & [= <-] & Hin)].
  - split; [intros H; inversion H | intros (? & ? & ?); done].
Qed.

(** A connection with a [users] entry is a key of the room the entry
    names. *)
Lemma user_entry_member (ins : list Input) (s : string) (u : UserEntry) :
  users (state_after ins) !! s = Some u →
  s ∈ member_ids (state_after ins) (user_roomId u).
Proof.
  intros Hu. apply elem_of_member_ids.
  by destruct (inv_user _ (invariant_state_after ins) s u Hu).
Qed.

Lemma user_entry_connected (ins : list Input) (s : string) (u : UserEntry) :
  users (state_after ins) !! s = Some u → connected (state_after ins) s = true.
Proof.
  intros Hu. apply connected_true.
  destruct (inv_user _ (invariant_state_after ins) s u Hu) as [(cs & -> & _) _].
  eauto.
Qed.

(** The members recorded for a room are in the room's channel. *)
Lemma user_entry_in_channel (st : State) (s : string) (u : UserEntry) :
  invariant st → users st !! s = Some u → s ∈ in_channel st (user_roomId u).
Proof.
  intros Hinv Hu. apply elem_of_in_channel.
  by destruct (inv_user _ Hinv s u Hu).
Qed.

(** A channel whose name is not the id of a stored room holds at most the
    socket of that name. *)
Lemma private_channel (st : State) (b : string) :
  invariant st → is_Some (sockets st !! b) → rooms st !! b = None →
  in_channel st b = {[ b ]}.
Proof.
  intros Hinv [cs Hb] Hroom. apply set_eq. intros t.
  rewrite elem_of_in_channel, elem_of_singleton. split.
  - intros (cs' & Ht & Hc).
    destruct (inv_channel _ Hinv t cs' b Ht Hc) as [->|(rm & Hrm & _)];
      [done | congruence].
  - intros ->. exists cs. split; [done|]. eapply inv_own_channel; eauto.
Qed.

(** A channel whose name is not the id of a stored room holds no socket
    but the one of that name. *)
Lemma channel_without_room (st : State) (c t : string) :
  invariant st → rooms st !! c = None → t ∈ in_channel st c → t = c.
Proof.
  intros Hinv Hroom Ht. apply elem_of_in_channel in Ht as (cs & Ht & Hc).
  destruct (inv_channel _ Hinv t cs c Ht Hc) as [->|(rm & Hrm & _)];
    [done | congruence].
Qed.

(** C3 (the code departs from the claim).  The claim: in every reachable
    state a connection identifier is a key of the membership map of at
    most one room, and a connection that joins room A and then room B is
    no longer a member of A.  The join handler never removes the joiner
    from a room it joined before: after joining A and then B the
    connection is a key of both membership maps, and once it has
    disconnected it is still a key of A's map, which keeps room A in the
    registry. *)
Theorem double_join_keeps_first_membership :
  let st := state_after double_join in
  let st' := state_after (double_join ++ [Disconnect "s1"]) in
  member_ids st "A" = ["s1"] ∧ member_ids st "B" = ["s1"] ∧
  connected st' "s1" = false ∧ users st' !! "s1" = None ∧
  member_ids st' "A" = ["s1"] ∧ member_ids st' "B" = [].
Proof. vm_compute. done. Qed.

(** C4.  In every state the server reaches, a room identifier is present
    in the rooms map exactly when the membership of that room is not
    empty.  The disconnect of the connection that is the only member of
    its room deletes the room in the same step, and a room in which
    another member remains is still present after the step. *)
Theorem room_present_iff_members (ins : list Input) (r : string) :
  let st := state_after ins in
  (is_Some (rooms st !! r) ↔ membership st r ≠ []) ∧
  (∀ s u, users st !! s = Some u → user_roomId u = r →
     (∀ t, t ∈ member_ids st r → t = s) →
     rooms (step st (Disconnect s)).1 !! r = None) ∧
  (∀ s t, t ∈ member_ids st r → t ≠ s →
     is_Some (rooms (step st (Disconnect s)).1 !! r)).
Proof.
  intros st. pose proof (invariant_state_after ins) as Hinv. fold st in Hinv.
  split; [|split].
  - unfold membership. split.
    + intros [room Hroom]. rewrite Hroom. unfold JsMap.values.
      pose proof (inv_nonempty _ Hinv r room Hroom) as Hne.
      destruct (room_users room); [done | discriminate].
    + destruct (rooms st !! r); [eauto | done].
  - intros s u Hu <- Honly.
    pose proof (user_entry_connected ins s u Hu) as Hconn. fold st in Hconn.
    simpl. rewrite Hconn. unfold on_disconnect. simpl. rewrite Hu.
    destruct (inv_user _ Hinv s u Hu) as [_ (room & Hroom & _)].
    rewrite Hroom. unfold member_ids in Honly. rewrite Hroom in Honly.
    rewrite (JsMapFacts.delete_only_key _ _ Honly). simpl.
    apply lookup_delete_eq.
  - intros s t Ht Hne. apply elem_of_member_ids in Ht as (room & Hroom & Hin).
    simpl. destruct (connected st s); [|simpl; rewrite Hroom; eauto].
    unfold on_disconnect. simpl.
    destruct (users st !! s) as [u|] eqn:Hu; [|simpl; rewrite Hroom; eauto].
    destruct (rooms st !! user_roomId u) as [room'|] eqn:Hroom';
      [|simpl; rewrite Hroom; eauto].
    destruct (decide (user_roomId u = r)) as [Heq|Hr].
    + rewrite Heq, Hroom in Hroom'. injection Hroom' as <-.
      rewrite decide_False.
      * simpl. rewrite Heq, lookup_insert_eq. eauto.
      * unfold JsMap.size. intros Hlen. apply length_zero_iff_nil in Hlen.
        rewrite <- (JsMapFacts.get_delete_ne _ s t) in Hin by done.
        rewrite Hlen in Hin. by destruct Hin.
    + case_decide; simpl.
      * rewrite lookup_delete_ne by done. rewrite Hroom. eauto.
      * rewrite lookup_insert_ne by done. rewrite Hroom. eauto.
Qed.

Lemma room_present_iff_members_witness :
  rooms (step (state_after (take 3 two_in_room)) (Disconnect "s1")).1 !! "A"
  = None.
Proof.
  apply (proj1 (proj2 (room_present_iff_members (take 3 two_in_room) "A"))
           "s1" {| user_roomId := "A"; user_username := "ann" |}).
  - vm_compute. reflexivity.
  - reflexivity.
  - intros t Ht.
    assert (Hids : member_ids (state_after (take 3 two_in_room)) "A" = ["s1"])
      by (vm_compute; reflexivity).
    rewrite Hids in Ht. apply list_elem_of_singleton in Ht. exact Ht.
Defined.

Ltac emitted H :=
  repeat (apply elem_of_cons in H as [->|H]); try (by apply elem_of_nil in H).



(** C7.  A join to a room identifier that is absent creates the room with
    the joiner as its only member, no messages, and the video flag of that
    call (false when the call gives none).  A join to a room that exists
    keeps its video flag and its messages and sets the entry of the
    connection in the membership map: the entry of a connection that is
    already a key is replaced in place, the keys staying as they were, and
    the entries of the other connections are untouched.  No other room is
    changed. *)
Theorem join_creates_or_keeps_room (st : State) (s r name : string)
    (v : option bool) (env : Env) :
  let st' := (on_join_room s r name v env st).1 in
  (rooms st !! r = None →
     rooms st' !! r =
       Some {| room_id := r;
               room_users := [(s, joined_member s name env)];
               room_messages := [];
               room_isVideoCall := default false v |}) ∧
  (∀ room, rooms st !! r = Some room →
     ∃ room', rooms st' !! r = Some room' ∧
       room_isVideoCall room' = room_isVideoCall room ∧
       room_messages room' = room_messages room ∧
       room_id room' = room_id room ∧
       room_users room' =
         JsMap.set s (joined_member s name env) (room_users room) ∧
       JsMap.get s (room_users room') = Some (joined_member s name env) ∧
       (∀ t, t ≠ s →
          JsMap.get t (room_users room') = JsMap.get t (room_users room)) ∧
       (is_Some (JsMap.get s (room_users room)) →
          JsMap.keys (room_users room') = JsMap.keys (room_users room)) ∧
       (JsMap.get s (room_users room) = None →
          JsMap.keys (room_users room') = JsMap.keys (room_users room) ++ [s])) ∧
  (∀ r', r' ≠ r → rooms st' !! r' = rooms st !! r').
Proof.
  unfold on_join_room. simpl. split; [|split].
  - intros ->. by rewrite lookup_insert_eq.
  - intros room ->. eexists. rewrite lookup_insert_eq. split; [done|]. simpl.
    repeat split.
    + apply JsMapFacts.get_set_eq.
    + intros t Ht. apply JsMapFacts.get_set_ne. congruence.
    + apply JsMapFacts.keys_set_present.
    + apply JsMapFacts.keys_set_absent.
  - intros r' Hne. by rewrite lookup_insert_ne.
Qed.

Lemma join_creates_or_keeps_room_witness :
  rooms (on_join_room "s1" "A" "ann" (Some true) (at_time 1) init).1 !! "A" =
    Some {| room_id := "A";
            room_users := [("s1", joined_member "s1" "ann" (at_time 1))];
            room_messages := [];
            room_isVideoCall := true |}.
Proof.
  apply (proj1 (join_creates_or_keeps_room init "s1" "A" "ann" (Some true)
                  (at_time 1))).
  reflexivity.
Defined.

(** C8.  In every state the server reaches: a send-message from a
    connection that is a key of no room's membership map changes nothing
    and emits nothing; a send-message from a connection with a [users]
    entry appends the message built from that entry to the messages of the
    room the entry names, changes nothing else, and emits one new-message
    carrying it to the channel of that room, which contains every
    connection whose [users] entry names the room. *)
Theorem send_message_member_or_noop (ins : list Input) (s msg : string)
    (env : Env) :
  let st := state_after ins in
  let res := step st (On s (SendMessage msg) env) in
  ((∀ r, s ∉ member_ids st r) → res = (st, [])) ∧
  (∀ u, users st !! s = Some u →
     ∃ room, rooms st !! user_roomId u = Some room ∧
       rooms res.1 =
         <[ user_roomId u :=
              with_messages (room_messages room ++ [message_data s u msg env])
                room ]> (rooms st) ∧
       users res.1 = users st ∧ sockets res.1 = sockets st ∧
       res.2 = [ {| target := ToChannel (user_roomId u);
                    event := NewMessage (message_data s u msg env) |} ] ∧
       ∀ t u', users st !! t = Some u' → user_roomId u' = user_roomId u →
         t ∈ recipients res.1 (ToChannel (user_roomId u))).
Proof.
  intros st res. pose proof (invariant_state_after ins) as Hinv.
  fold st in Hinv. subst res. split.
  - intros Hnot. simpl. destruct (connected st s); [|done]. simpl.
    unfold on_send_message.
    destruct (users st !! s) as [u|] eqn:Hu; [|done].
    exfalso. apply (Hnot (user_roomId u)). by apply user_entry_member.
  - intros u Hu. pose proof (user_entry_connected ins s u Hu) as Hconn.
    fold st in Hconn.
    destruct (inv_user _ Hinv s u Hu) as [_ (room & Hroom & _)].
    exists room. split; [done|]. simpl. rewrite Hconn. simpl.
    unfold on_send_message. rewrite Hu, Hroom. simpl.
    repeat split.
    intros t u' Hu' Heq. rewrite <- Heq. apply elem_of_in_channel. simpl.
    by destruct (inv_user _ Hinv t u' Hu').
Qed.

Lemma send_message_member_or_noop_witness :
  step (state_after two_in_room) (On "s9" (SendMessage "hi") (at_time 3)) =
    (state_after two_in_room, []) ∧
  (step (state_after two_in_room) (On "s2" (SendMessage "hi") (at_time 3))).2 =
    [ {| target := ToChannel "A";
         event := NewMessage
           (message_data "s2" {| user_roomId := "A"; user_username := "bob" |}
              "hi" (at_time 3)) |} ].
Proof.
  split.
  - apply (proj1 (send_message_member_or_noop two_in_room "s9" "hi" (at_time 3))).
    intros r Hin. apply elem_of_member_ids in Hin as (room & Hroom & Hget).
    assert (Hdom : dom (rooms (state_after two_in_room)) = {[ "A" ]})
      by (vm_compute; reflexivity).
    assert (Hr : r ∈ dom (rooms (state_after two_in_room)))
      by (apply elem_of_dom; eauto).
    rewrite Hdom in Hr. apply elem_of_singleton in Hr as ->.
    vm_compute in Hroom. injection Hroom as <-. vm_compute in Hget.
    destruct Hget as [m Hm]. discriminate Hm.
  - destruct (proj2 (send_message_member_or_noop two_in_room "s2" "hi"
                       (at_time 3))
                {| user_roomId := "A"; user_username := "bob" |})
      as (room & _ & _ & _ & _ & Hout & _).
    + vm_compute. reflexivity.
    + exact Hout.
Defined.

Lemma relay_emits (st : State) (a b : string) (ev : ClientEvent)
    (sev : ServerEvent) (env : Env) :
  connected st a = true → signaling_target ev = Some b →
  relayed a ev = Some sev →
  step st (On a ev env) =
    (st, [ {| target := ToChannelExcept b a; event := sev |} ]).
Proof.
  intros Hconn Ht Hr. simpl. rewrite Hconn.
  destruct ev; simpl in *; try discriminate;
    injection Ht as <-; injection Hr as <-; reflexivity.
Qed.

(** C9 (the code departs from the claim).  The claim: a directed
    signaling message of connection A with target B is delivered to B
    only.  The join handler hands the room id a client chooses to
    [socket.join], so room ids share their names with the channels of the
    sockets: three connections share the room "lobby", the third has also
    joined a room whose id is the second connection's id, and an offer of
    the first targeted at the second is then delivered to the third as
    well. *)
Lemma directed_offer_reaches_third_connection :
  let st := state_after shadow_room in
  connected st "s1" = true ∧ connected st "s2" = true ∧
  connected st "s3" = true ∧
  "s3" ∈ recipients st (ToChannelExcept "s2" "s1") ∧
  ¬ delivered_only_to st "s1" "s2" (WebrtcOffer "s2" sample_offer) (at_time 5).
Proof.
  intros st.
  assert (Hrec : recipients st (ToChannelExcept "s2" "s1") = {[ "s2"; "s3" ]})
    by (vm_compute; reflexivity).
  do 3 (split; [vm_compute; reflexivity|]). split.
  - rewrite Hrec. apply elem_of_union_r, elem_of_singleton. reflexivity.
  - intros Hclaim.
    destruct (Hclaim {| target := ToChannelExcept "s2" "s1";
                        event := RelayedOffer sample_offer "s1" |})
      as [Honly _].
    + vm_compute. left.
    + change (recipients st (ToChannelExcept "s2" "s1") = {[ "s2" ]}) in Honly.
      rewrite Hrec in Honly.
      assert (Hin : "s3" ∈ ({[ "s2" ]} : gset string)).
      { rewrite <- Honly. apply elem_of_union_r, elem_of_singleton. reflexivity. }
      apply elem_of_singleton in Hin. discriminate Hin.
Qed.

(** In every state the server reaches, a webrtc-offer, webrtc-answer or
    webrtc-ice-candidate of connection A with target B leaves the state as
    it is and emits one event, carrying the payload and fromUserId = A,
    addressed to the channel named B with the sender's channel excepted.
    When B is a live connection other than A and the registry holds no
    room whose id is A or B, the event reaches B and no other
    connection. *)
Theorem directed_relay_recipients (ins : list Input) (a b : string)
    (ev : ClientEvent) (env : Env) :
  let st := state_after ins in
  connected st a = true → signaling_target ev = Some b →
  (∃ sev, relayed a ev = Some sev ∧ from_user sev = Some a ∧
     step st (On a ev env) =
       (st, [ {| target := ToChannelExcept b a; event := sev |} ])) ∧
  recipients st (ToChannelExcept b a) = in_channel st b ∖ in_channel st a ∧
  (connected st b = true → a ≠ b →
     rooms st !! a = None → rooms st !! b = None →
     delivered_only_to st a b ev env).
Proof.
  intros st Hconn Ht.
  assert (Hsev : ∃ sev, relayed a ev = Some sev ∧ from_user sev = Some a).
  { destruct ev; simpl in *; try discriminate; eauto. }
  destruct Hsev as (sev & Hsev & Hfrom).
  pose proof (relay_emits st a b ev sev env Hconn Ht Hsev) as Hstep.
  split; [eauto|]. split; [done|].
  intros Hb Hne Hrooma Hroomb e. rewrite Hstep. simpl. intros He.
  emitted He. simpl. split; [|done].
  rewrite (private_channel st b (invariant_state_after ins)
             (proj1 (connected_true st b) Hb) Hroomb).
  rewrite (private_channel st a (invariant_state_after ins)
             (proj1 (connected_true st a) Hconn) Hrooma).
  apply set_eq. intros t. rewrite elem_of_difference, !elem_of_singleton.
  split; [by intros [? _] | intros ->; split; congruence].
Qed.

Lemma directed_relay_recipients_witness :
  delivered_only_to (state_after two_in_room) "s1" "s2"
    (WebrtcOffer "s2" sample_offer) (at_time 3).
Proof.
  apply (directed_relay_recipients two_in_room "s1" "s2"
           (WebrtcOffer "s2" sample_offer) (at_time 3)).
  - vm_compute. reflexivity.
  - reflexivity.
  - vm_compute. reflexivity.
  - discriminate.
  - vm_compute. reflexivity.
  - vm_compute. reflexivity.
Defined.

End RegistryFacts.

(** ** The session coordinator *)

Module CoordinatorFacts.
Import Client Coordinator.

Lemma alter_last {A} (f : A → A) (l : list A) (x : A) :
  alter f (length l) (l ++ [x]) = l ++ [f x].
Proof.
  rewrite <- (Nat.add_0_r (length l)) at 1. by rewrite alter_app_r.
Qed.

Lemma lookup_last {A} (l : list A) (x : A) : (l ++ [x]) !! length l = Some x.
Proof. by apply list_lookup_middle. Qed.

Lemma createPeerConnection_spec (user : string) (st : State) :
  createPeerConnection user st =
    (length (connections st),
     with_connections
       (λ cs, cs ++ [ {| rtc_userId := user; rtc_calls := local_tracks st |} ])
       st).
Proof. reflexivity. Qed.

Lemma local_tracks_add (st : State) (c : RtcCall) :
  c ∈ local_tracks st → ∃ t s, c = AddTrack t s.
Proof.
  unfold local_tracks. destruct (localStreamRef st) as [stream|].
  - intros Hc. apply list_elem_of_fmap in Hc as (t & -> & _). eauto.
  - intros Hc. by apply elem_of_nil in Hc.
Qed.

Lemma existsb_local_tracks (st : State) (p : RtcCall → bool) :
  (∀ t s, p (AddTrack t s) = false) → existsb p (local_tracks st) = false.
Proof.
  intros Hp. unfold local_tracks. destruct (localStreamRef st) as [stream|];
    [|done].
  induction (stream_tracks stream) as [|t ts IH]; [done|].
  rewrite fmap_cons. cbn [existsb]. rewrite Hp. exact IH.
Qed.

Lemma handleOffer_connections (answer offer : RTCSessionDescriptionInit)
    (user : string) (st : State) :
  connections (handleOffer answer offer user st) =
    connections st ++
      [ {| rtc_userId := user;
           rtc_calls := local_tracks st ++
             [SetRemoteDescription offer; CreateAnswer;
              SetLocalDescription answer] |} ].
Proof.
  unfold handleOffer. rewrite createPeerConnection_spec.
  unfold emit, invoke, setPeers, with_peersRef, with_connections. simpl.
  destruct (socket st); simpl; rewrite !alter_last; unfold record_call; simpl;
    by rewrite <- !app_assoc.
Qed.

Lemma handleOffer_peersRef (answer offer : RTCSessionDescriptionInit)
    (user : string) (st : State) :
  peersRef (handleOffer answer offer user st) =
    JsMap.set user {| userId := user; connection := length (connections st) |}
      (peersRef st).
Proof.
  unfold handleOffer. rewrite createPeerConnection_spec.
  unfold emit. simpl. by destruct (socket st).
Qed.

Lemma handleOffer_peers (answer offer : RTCSessionDescriptionInit)
    (user : string) (st : State) :
  peers (handleOffer answer offer user st) =
    peersRef (handleOffer answer offer user st).
Proof.
  unfold handleOffer. rewrite createPeerConnection_spec.
  unfold emit. simpl. by destruct (socket st).
Qed.

Lemma initiateCall_connections (offer : RTCSessionDescriptionInit)
    (user : string) (st : State) :
  connections (initiateCall offer user st) =
    connections st ++
      [ {| rtc_userId := user;
           rtc_calls := local_tracks st ++
             [CreateOffer; SetLocalDescription offer] |} ].
Proof.
  unfold initiateCall. rewrite createPeerConnection_spec.
  unfold emit, invoke, setPeers, with_peersRef, with_connections. simpl.
  destruct (socket st); simpl; rewrite !alter_last; unfold record_call; simpl;
    by rewrite <- !app_assoc.
Qed.

Lemma initiateCall_peersRef (offer : RTCSessionDescriptionInit)
    (user : string) (st : State) :
  peersRef (initiateCall offer user st) =
    JsMap.set user {| userId := user; connection := length (connections st) |}
      (peersRef st).
Proof.
  unfold initiateCall. rewrite createPeerConnection_spec.
  unfold emit. simpl. by destruct (socket st).
Qed.

Lemma invoke_lookup (h : nat) (c : RtcCall) (st : State) :
  connections (invoke h c st) !! h = record_call c <$> connections st !! h.
Proof. unfold invoke. simpl. apply list_lookup_alter_eq. Qed.

Lemma closed_record_close (pc : RTCPeerConnection) :
  closed (record_call Close pc) = true.
Proof.
  unfold closed. apply bool_decide_eq_true. simpl.
  apply elem_of_app. right. by left.
Qed.

(** C10.  The offer handler makes a new peer connection for every offer:
    its reference is one no stored connection has, the entry of the
    sending user in the peer map (and in its React copy) is set to it
    whatever was stored there, and the calls made on it are the local
    tracks, setRemoteDescription, createAnswer and setLocalDescription.
    No call is made on any connection that existed before, so a connection
    stored for the sender before the offer is left as it was and is not
    closed. *)
Theorem offer_replaces_link_without_closing (st : State)
    (answer offer : RTCSessionDescriptionInit) (user : string) :
  let st' := handleOffer answer offer user st in
  let h := length (connections st) in
  connections st !! h = None ∧
  JsMap.get user (peersRef st') = Some {| userId := user; connection := h |} ∧
  peers st' = peersRef st' ∧
  connections st' !! h =
    Some {| rtc_userId := user;
            rtc_calls := local_tracks st ++
              [SetRemoteDescription offer; CreateAnswer;
               SetLocalDescription answer] |} ∧
  (∀ k pc, connections st !! k = Some pc → connections st' !! k = Some pc) ∧
  (∀ old pc, JsMap.get user (peersRef st) = Some old →
     connections st !! connection old = Some pc →
     connection old ≠ h ∧
     connections st' !! connection old = Some pc).
Proof.
  intros st' h. subst st' h.
  rewrite handleOffer_peers, handleOffer_peersRef, handleOffer_connections.
  split; [apply lookup_ge_None; lia|].
  split; [apply JsMapFacts.get_set_eq|].
  split; [done|].
  split; [apply lookup_last|].
  split.
  - intros k pc Hk. by apply lookup_app_l_Some.
  - intros old pc _ Hpc. split.
    + intros Heq. apply lookup_lt_Some in Hpc. lia.
    + by apply lookup_app_l_Some.
Qed.

Lemma offer_replaces_link_without_closing_witness :
  let st' := handleOffer Registry.sample_answer Registry.sample_offer "s2" linked in
  link_connected linked "s2" = true ∧
  JsMap.get "s2" (peersRef linked) = Some {| userId := "s2"; connection := 0 |} ∧
  JsMap.get "s2" (peersRef st') = Some {| userId := "s2"; connection := 1 |} ∧
  connections st' !! 0 = connections linked !! 0.
Proof.
  pose proof (offer_replaces_link_without_closing linked
                Registry.sample_answer Registry.sample_offer "s2")
    as (_ & Hnew & _ & _ & Hkeep & _).
  split; [reflexivity|]. split; [reflexivity|]. split; [exact Hnew|].
  apply (Hkeep 0). reflexivity.
Defined.

(** C1 as stated fails: a candidate from a user for whom no link exists
    leaves the coordinator as it was, so nothing is kept of it, and the
    peer connection made for the offer that follows never receives it. *)
Lemma early_candidate_is_dropped :
  let st := init (Some "s1") in
  on_server_event Registry.sample_answer
    (RelayedIceCandidate Registry.sample_candidate "s2") st = st ∧
  ¬ candidate_survives st Registry.sample_candidate "s2"
      Registry.sample_offer Registry.sample_answer.
Proof.
  split; [reflexivity|].
  intros (pc & Hlink & Hcand). vm_compute in Hlink. injection Hlink as <-.
  vm_compute in Hcand. by apply elem_of_nil in Hcand.
Qed.

(** C1 (amended).  An ICE candidate delivered while the coordinator holds
    no link for the sending user is dropped: the state is unchanged and
    nothing is queued.  When a link for the sender exists, the candidate
    is handed to addIceCandidate of that link's peer connection at once,
    whether or not a remote description has been set on it, and nothing
    else changes. *)
Theorem ice_candidate_applied_or_dropped (st : State)
    (cand : RTCIceCandidateInit) (user : string) :
  (JsMap.get user (peersRef st) = None →
     handleIceCandidate cand user st = st) ∧
  (∀ peer, JsMap.get user (peersRef st) = Some peer →
     handleIceCandidate cand user st =
       with_connections (alter (record_call (AddIceCandidate cand))
                           (connection peer)) st ∧
     ∀ pc, connections st !! connection peer = Some pc →
       connections (handleIceCandidate cand user st) !! connection peer =
         Some {| rtc_userId := rtc_userId pc;
                 rtc_calls := rtc_calls pc ++ [AddIceCandidate cand] |}).
Proof.
  unfold handleIceCandidate. split.
  - by intros ->.
  - intros peer ->. split; [done|]. intros pc Hpc.
    by rewrite invoke_lookup, Hpc.
Qed.

Lemma ice_candidate_applied_or_dropped_witness :
  handleIceCandidate Registry.sample_candidate "s2" in_call = in_call ∧
  connections
    (handleIceCandidate Registry.sample_candidate "s2"
       (initiateCall Registry.sample_offer "s2" in_call)) !! 0 =
    Some {| rtc_userId := "s2";
            rtc_calls :=
              [AddTrack "audio0" "local"; AddTrack "video0" "local";
               CreateOffer; SetLocalDescription Registry.sample_offer;
               AddIceCandidate Registry.sample_candidate] |}.
Proof.
  split.
  - apply (proj1 (ice_candidate_applied_or_dropped in_call
                    Registry.sample_candidate "s2")).
    reflexivity.
  - apply (proj2 (proj2 (ice_candidate_applied_or_dropped
                           (initiateCall Registry.sample_offer "s2" in_call)
                           Registry.sample_candidate "s2")
                    {| userId := "s2"; connection := 0 |} eq_refl)
             {| rtc_userId := "s2";
                rtc_calls :=
                  [AddTrack "audio0" "local"; AddTrack "video0" "local";
                   CreateOffer; SetLocalDescription Registry.sample_offer] |}).
    reflexivity.
Defined.

Lemma not_closed_after_tracks (st : State) (user : string) (cs : list RtcCall) :
  Close ∉ cs →
  closed {| rtc_userId := user; rtc_calls := local_tracks st ++ cs |} = false.
Proof.
  intros Hcs. unfold closed. apply bool_decide_eq_false. simpl.
  rewrite elem_of_app. intros [Hc|Hc]; [|done].
  apply local_tracks_add in Hc as (t & s & Hc). discriminate.
Qed.

Lemma startCall_spec (media : MediaStream) (st : State) (sid : string) :
  socket st = Some sid →
  let st' := startCall (Some media) st in
  socket st' = Some sid ∧ isCallActive st' = true ∧
  localStreamRef st' = Some media ∧ localStream st' = Some media ∧
  peersRef st' = peersRef st ∧ peers st' = peers st ∧
  connections st' = connections st ∧
  outbox st' = outbox st ++ [StartVideoCall].
Proof. intros Hs. unfold startCall, emit. simpl. rewrite Hs. simpl. done. Qed.

Lemma handleOffer_outbox (answer offer : RTCSessionDescriptionInit)
    (user sid : string) (st : State) :
  socket st = Some sid →
  outbox (handleOffer answer offer user st) =
    outbox st ++ [WebrtcAnswer user answer].
Proof.
  intros Hs. unfold handleOffer. rewrite createPeerConnection_spec.
  unfold emit. simpl. by rewrite Hs.
Qed.

Lemma initiateCall_outbox (offer : RTCSessionDescriptionInit)
    (user sid : string) (st : State) :
  socket st = Some sid →
  outbox (initiateCall offer user st) = outbox st ++ [WebrtcOffer user offer].
Proof.
  intros Hs. unfold initiateCall. rewrite createPeerConnection_spec.
  unfold emit. simpl. by rewrite Hs.
Qed.

(** After an offer has been handled the link to its sender is connected. *)
Lemma handleOffer_connected (answer offer : RTCSessionDescriptionInit)
    (user : string) (st : State) :
  link_connected (handleOffer answer offer user st) user = true.
Proof.
  unfold link_connected, link.
  rewrite handleOffer_peersRef, handleOffer_connections,
    JsMapFacts.get_set_eq. simpl. rewrite lookup_last.
  rewrite not_closed_after_tracks.
  - unfold has_local_description, has_remote_description. simpl.
    rewrite !existsb_app. simpl. by rewrite !orb_true_r.
  - intros Hc. repeat (apply elem_of_cons in Hc as [Hc|Hc]; [discriminate|]).
    by apply elem_of_nil in Hc.
Qed.

(** After the answer to an offer sent by [initiateCall] has been handled
    the link to the answering user is connected. *)
Lemma initiateCall_answer_connected (offer answer : RTCSessionDescriptionInit)
    (user : string) (st : State) :
  link_connected (handleAnswer answer user (initiateCall offer user st)) user
  = true.
Proof.
  unfold handleAnswer. rewrite initiateCall_peersRef, JsMapFacts.get_set_eq.
  unfold link_connected, link, invoke. simpl.
  rewrite initiateCall_peersRef, JsMapFacts.get_set_eq. simpl.
  rewrite initiateCall_connections, alter_last, lookup_last.
  unfold record_call. simpl. rewrite <- app_assoc.
  rewrite not_closed_after_tracks.
  - unfold has_local_description, has_remote_description. simpl.
    rewrite !existsb_app. simpl. by rewrite !orb_true_r.
  - intros Hc. repeat (apply elem_of_cons in Hc as [Hc|Hc]; [discriminate|]).
    by apply elem_of_nil in Hc.
Qed.

(** C2 as stated fails: starting a call in a room with one other member
    makes no link and sends no offer, only start-video-call; the server
    relays video-call-started to the member, and the member, whose own
    call is not active, ignores it and sends nothing, so neither side ever
    holds a link to the other. *)
Lemma call_start_sends_no_offer :
  let st := init (Some "s1") in
  let st' := startCall (Some camera) st in
  let member := init (Some "s2") in
  let srv := Server.state_after Registry.two_in_room in
  peersRef st' = [] ∧ outbox st' = [StartVideoCall] ∧
  Server.step srv (Server.On "s1" StartVideoCall (Registry.at_time 3)) =
    (srv, [ {| Server.target := Server.ToChannelExcept "A" "s1";
               Server.event := VideoCallStarted "s1" "ann" |} ]) ∧
  Server.recipients srv (Server.ToChannelExcept "A" "s1") = {[ "s2" ]} ∧
  on_server_event Registry.sample_offer (VideoCallStarted "s1" "ann") member
    = member ∧
  link_connected st' "s2" = false ∧ link_connected member "s1" = false ∧
  ¬ call_start_offers_all st (Some camera) ["s2"].
Proof.
  do 2 (split; [reflexivity|]).
  do 2 (split; [vm_compute; reflexivity|]).
  do 3 (split; [reflexivity|]).
  intros Hall. destruct (Hall "s2") as [[peer Hpeer] _]; [by left|].
  discriminate Hpeer.
Qed.

(** C2 (amended).  The call-start action of a participant with granted
    media marks its call active and emits start-video-call; it makes no
    link and sends no offer.  A room member that receives the relayed
    video-call-started while its own call is not active ignores it.  A
    member whose call is active makes a link to the initiator and sends it
    an offer; the initiator, on the relayed offer, makes a link to the
    member and sends the answer, which connects its link; the member, on
    the relayed answer, has its link to the initiator connected. *)
Theorem call_start_handshake (i m : State) (iid mid uname : string)
    (media : MediaStream) (offer answer : RTCSessionDescriptionInit) :
  socket i = Some iid → socket m = Some mid → iid ≠ mid →
  let i1 := startCall (Some media) i in
  (isCallActive i1 = true ∧ peersRef i1 = peersRef i ∧
   connections i1 = connections i ∧
   outbox i1 = outbox i ++ [StartVideoCall]) ∧
  (isCallActive m = false →
     on_server_event offer (VideoCallStarted iid uname) m = m) ∧
  (isCallActive m = true →
     let m1 := on_server_event offer (VideoCallStarted iid uname) m in
     let i2 := on_server_event answer (RelayedOffer offer mid) i1 in
     let m2 := on_server_event offer (RelayedAnswer answer iid) m1 in
     outbox m1 = outbox m ++ [WebrtcOffer iid offer] ∧
     Registry.relayed mid (WebrtcOffer iid offer) = Some (RelayedOffer offer mid) ∧
     outbox i2 = outbox i1 ++ [WebrtcAnswer mid answer] ∧
     Registry.relayed iid (WebrtcAnswer mid answer) =
       Some (RelayedAnswer answer iid) ∧
     link_connected i2 mid = true ∧ link_connected m2 iid = true).
Proof.
  intros Hi Hm Hne i1.
  destruct (startCall_spec media i iid Hi)
    as (Hs1 & Hact & _ & _ & Hpeers & _ & Hconns & Hout).
  fold i1 in Hs1, Hact, Hpeers, Hconns, Hout.
  split; [done|]. split.
  - intros Hidle. unfold on_server_event, on_video_call_started.
    by rewrite Hm, Hidle.
  - intros Hactive m1 i2 m2.
    assert (Hm1 : m1 = initiateCall offer iid m).
    { subst m1. unfold on_server_event, on_video_call_started.
      rewrite Hm, Hactive. simpl.
      rewrite bool_decide_eq_false_2 by congruence. done. }
    assert (Hs_m1 : socket m1 = Some mid).
    { rewrite Hm1. unfold initiateCall. rewrite createPeerConnection_spec.
      unfold emit. simpl. by rewrite Hm. }
    assert (Hi2 : i2 = handleOffer answer offer mid i1).
    { subst i2. unfold on_server_event. by rewrite Hs1. }
    assert (Hm2 : m2 = handleAnswer answer iid m1).
    { subst m2. unfold on_server_event. by rewrite Hs_m1. }
    split; [rewrite Hm1; by eapply initiateCall_outbox|].
    split; [done|].
    split; [rewrite Hi2; by eapply handleOffer_outbox|].
    split; [done|].
    split.
    + rewrite Hi2. apply handleOffer_connected.
    + rewrite Hm2, Hm1. apply initiateCall_answer_connected.
Qed.

Lemma call_start_handshake_witness :
  let member := startCall (Some camera) (init (Some "s2")) in
  let m1 := on_server_event Registry.sample_offer
              (VideoCallStarted "s1" "ann") member in
  let m2 := on_server_event Registry.sample_offer
              (RelayedAnswer Registry.sample_answer "s1") m1 in
  link_connected m2 "s1" = true.
Proof.
  apply (call_start_handshake (init (Some "s1"))
           (startCall (Some camera) (init (Some "s2"))) "s1" "s2" "ann"
           camera Registry.sample_offer Registry.sample_answer).
  - reflexivity.
  - reflexivity.
  - discriminate.
  - reflexivity.
Defined.

End CoordinatorFacts.

(** ** Presence: leaving and disconnecting *)

Module Presence.
Import Server Registry RegistryFacts.

Lemma end_video_call_state (st : State) (s : string) (env : Env) :
  (step st (On s EndVideoCall env)).1 = st.
Proof.
  simpl. destruct (connected st s); [|done]. simpl.
  unfold on_end_video_call. by destruct (users st !! s).
Qed.

Lemma connection_registry (st : State) (s : string) :
  rooms (step st (Connection s)).1 = rooms st ∧
  users (step st (Connection s)).1 = users st.
Proof. simpl. by destruct (connected st s). Qed.

(** A graceful leave changes the registry as the bare disconnect does. *)
Lemma leaveRoom_as_disconnect (st : State) (callActive : bool)
    (s s' : string) (env : Env) :
  rooms (run st (leaveRoom_inputs callActive s s' env)).1 =
    rooms (step st (Disconnect s)).1 ∧
  users (run st (leaveRoom_inputs callActive s s' env)).1 =
    users (step st (Disconnect s)).1.
Proof.
  unfold leaveRoom_inputs. destruct callActive; cbn [app];
    rewrite !run_cons_state; cbn [run fst];
    rewrite ?end_video_call_state; apply connection_registry.
Qed.

Lemma user_left_closes_link (c : Client.State) (user : string)
    (peer : Client.PeerConnection) :
  JsMap.get user (Client.peersRef c) = Some peer →
  let c' := Client.on_user_left user c in
  JsMap.get user (Client.peersRef c') = None ∧
  JsMap.get user (Client.peers c') = None ∧
  JsMap.get user (Client.remoteStreams c') = None ∧
  Client.connections c' =
    alter (Client.record_call Client.Close) (Client.connection peer)
      (Client.connections c) ∧
  ∀ pc, Client.connections c !! Client.connection peer = Some pc →
    ∃ pc', Client.connections c' !! Client.connection peer = Some pc' ∧
           Client.closed pc' = true.
Proof.
  intros Hpeer. unfold Client.on_user_left. rewrite Hpeer. simpl.
  rewrite !JsMapFacts.get_delete_eq. repeat split.
  intros pc Hpc. exists (Client.record_call Client.Close pc).
  rewrite list_lookup_alter_eq, Hpc. split; [done|].
  apply CoordinatorFacts.closed_record_close.
Qed.

(** In every state the server reaches, the close of the socket of a
    connection with a [users] entry removes the connection from the
    [users] map and from the membership of the room the entry names, as
    the graceful leave of the page does (which closes the socket itself);
    when members remain, one user-left carrying the remaining members is
    addressed to the room's channel, and it reaches every connection whose
    [users] entry names the room when no room has the leaver's id; when
    none remain the room is deleted.  A coordinator that holds a link to
    the connection named in a user-left closes that link's peer connection
    and removes the connection's entry from its peer map, its React copy,
    and the remote streams. *)
Theorem disconnect_leaves_and_closes_links (ins : list Input) (s : string)
    (u : UserEntry) (c : Client.State) (peer : Client.PeerConnection)
    (created : RTCSessionDescriptionInit) :
  let st := state_after ins in
  let res := step st (Disconnect s) in
  users st !! s = Some u →
  is_Some (Client.socket c) →
  JsMap.get s (Client.peersRef c) = Some peer →
  (∃ room, rooms st !! user_roomId u = Some room ∧
     let remaining := JsMap.delete s (room_users room) in
     users res.1 = delete s (users st) ∧
     (s ∉ member_ids res.1 (user_roomId u)) ∧
     connected res.1 s = false ∧
     (remaining = [] →
        rooms res.1 = delete (user_roomId u) (rooms st) ∧ res.2 = []) ∧
     (remaining ≠ [] →
        rooms res.1 =
          <[ user_roomId u := with_users remaining room ]> (rooms st) ∧
        res.2 = [ {| target := ToChannelExcept (user_roomId u) s;
                     event := UserLeft s (user_username u)
                                (JsMap.values remaining) |} ] ∧
        ∀ t u', rooms st !! s = None → users res.1 !! t = Some u' →
          user_roomId u' = user_roomId u →
          t ∈ recipients res.1 (ToChannelExcept (user_roomId u) s))) ∧
  (∀ callActive s' env,
     rooms (run st (leaveRoom_inputs callActive s s' env)).1 = rooms res.1 ∧
     users (run st (leaveRoom_inputs callActive s s' env)).1 = users res.1) ∧
  (∀ name us,
     let c' := Client.on_server_event created (UserLeft s name us) c in
     JsMap.get s (Client.peersRef c') = None ∧
     JsMap.get s (Client.peers c') = None ∧
     JsMap.get s (Client.remoteStreams c') = None ∧
     ∀ pc, Client.connections c !! Client.connection peer = Some pc →
       ∃ pc', Client.connections c' !! Client.connection peer = Some pc' ∧
              Client.closed pc' = true).
Proof.
  intros st res Hu [sock Hsock] Hpeer.
  pose proof (invariant_state_after ins) as Hinv. fold st in Hinv.
  pose proof (invariant_step st (Disconnect s) Hinv) as Hinv'.
  fold res in Hinv'.
  pose proof (user_entry_connected ins s u Hu) as Hconn.
  fold st in Hconn.
  destruct (inv_user _ Hinv s u Hu) as [_ (room & Hroom & _)].
  assert (Hres : res =
    on_disconnect s {| rooms := rooms st; users := users st;
                       sockets := delete s (sockets st) |}).
  { subst res. simpl. by rewrite Hconn. }
  split; [|split].
  - exists room. split; [done|]. simpl.
    assert (Hgone : users res.1 !! s = None ∧ connected res.1 s = false ∧
                    users res.1 = delete s (users st)).
    { rewrite Hres. unfold on_disconnect. simpl. rewrite Hu, Hroom.
      case_decide; simpl; rewrite lookup_delete_eq;
        (split; [done|]); (split; [|done]);
        apply connected_false; simpl; apply lookup_delete_eq. }
    destruct Hgone as (Hnone & Hdis & Husers).
    split; [done|]. split; [|split; [done|]].
    + rewrite elem_of_member_ids. intros (rm & Hrm & Hin).
      rewrite Hres in Hrm. unfold on_disconnect in Hrm. simpl in Hrm.
      rewrite Hu, Hroom in Hrm. case_decide; simpl in Hrm.
      * by rewrite lookup_delete_eq in Hrm.
      * rewrite lookup_insert_eq in Hrm. injection Hrm as <-. simpl in Hin.
        rewrite JsMapFacts.get_delete_eq in Hin. by destruct Hin.
    + split.
      * intros Hnil. rewrite Hres. unfold on_disconnect. simpl.
        rewrite Hu, Hroom, Hnil. simpl. done.
      * intros Hrem.
        assert (Hout : res =
          ({| rooms := <[ user_roomId u :=
                            with_users (JsMap.delete s (room_users room)) room ]>
                         (rooms st);
              users := delete s (users st);
              sockets := delete s (sockets st) |},
           [ {| target := ToChannelExcept (user_roomId u) s;
                event := UserLeft s (user_username u)
                  (JsMap.values (JsMap.delete s (room_users room))) |} ])).
        { rewrite Hres. unfold on_disconnect. simpl. rewrite Hu, Hroom.
          rewrite decide_False; [done|]. unfold JsMap.size. intros Hlen.
          by apply Hrem, length_zero_iff_nil. }
        split; [by rewrite Hout|]. split; [by rewrite Hout|].
        intros t u' Hnoroom Hu' Heq. simpl. apply elem_of_difference. split.
        -- rewrite <- Heq. by apply user_entry_in_channel.
        -- intros Hin. apply (channel_without_room _ s t Hinv') in Hin.
           ++ subst t. congruence.
           ++ rewrite Hout. simpl. rewrite lookup_insert_ne; [done|].
              intros Heq'. rewrite Heq' in Hroom. congruence.
  - intros callActive s' env. apply leaveRoom_as_disconnect.
  - intros name us c'. subst c'. unfold Client.on_server_event.
    rewrite Hsock.
    destruct (user_left_closes_link c s peer Hpeer) as (H1 & H2 & H3 & _ & H5).
    done.
Qed.

Lemma disconnect_leaves_and_closes_links_witness :
  (step (state_after two_in_room) (Disconnect "s2")).2 =
    [ {| target := ToChannelExcept "A" "s2";
         event := UserLeft "s2" "bob" [joined_member "s1" "ann" (at_time 1)] |} ] ∧
  JsMap.get "s2"
    (Client.peersRef
       (Client.on_server_event sample_offer
          (UserLeft "s2" "bob" [joined_member "s1" "ann" (at_time 1)])
          Coordinator.linked)) = None.
Proof.
  destruct (disconnect_leaves_and_closes_links two_in_room "s2"
              {| user_roomId := "A"; user_username := "bob" |}
              Coordinator.linked
              {| Client.userId := "s2"; Client.connection := 0 |}
              sample_offer)
    as ((room & Hroom & _ & _ & _ & _ & Hrem) & _ & Hclient).
  - vm_compute. reflexivity.
  - vm_compute. eauto.
  - reflexivity.
  - split.
    + vm_compute in Hroom. injection Hroom as <-.
      destruct Hrem as (_ & Hout & _); [discriminate|]. exact Hout.
    + apply (Hclient "bob" [joined_member "s1" "ann" (at_time 1)]).
Defined.

(** C5 (the code departs from the claim).  The claim: on the disconnect of
    a member a user-left is broadcast to the remaining members, and every
    client that held a link to the member closes it.  The join handler
    hands the room id a client chooses to [socket.join], so room ids share
    their names with the channels of the sockets, and [socket.to] excepts
    the channel named by the sender's id: the first connection has joined
    a room whose id is the second connection's id, both are members of
    "lobby", and when the second disconnects the user-left addressed to
    "lobby" reaches nobody, so the remaining member is never told and its
    coordinator never closes the link. *)
Theorem user_left_reaches_no_remaining_member :
  let st := state_after shadowed_leave in
  let res := step st (Disconnect "s2") in
  users st !! "s1" = Some {| user_roomId := "lobby"; user_username := "ann" |} ∧
  member_ids st "lobby" = ["s1"; "s2"] ∧
  member_ids res.1 "lobby" = ["s1"] ∧
  connected res.1 "s1" = true ∧
  res.2 = [ {| target := ToChannelExcept "lobby" "s2";
               event := UserLeft "s2" "bob"
                          [joined_member "s1" "ann" (at_time 2)] |} ] ∧
  recipients res.1 (ToChannelExcept "lobby" "s2") = ∅.
Proof. vm_compute. done. Qed.

End Presence.

(** ** More on the registry and the relay *)

Module RegistryMore.
Import Server Registry RegistryFacts Listing.

Lemma NoDup_keys_set {V} (m : list (string * V)) (k : string) (v : V) :
  NoDup (JsMap.keys m) → NoDup (JsMap.keys (JsMap.set k v m)).
Proof.
  intros Hnd. destruct (JsMap.get k m) as [v0|] eqn:Hget.
  - by rewrite JsMapFacts.keys_set_present by eauto.
  - rewrite JsMapFacts.keys_set_absent by done.
    apply NoDup_app. split; [done|]. split; [|apply NoDup_singleton].
    intros k' Hk' Hin. apply list_elem_of_singleton in Hin as ->.
    by apply JsMapFacts.not_elem_of_keys in Hget.
Qed.

Lemma NoDup_keys_delete {V} (m : list (string * V)) (k : string) :
  NoDup (JsMap.keys m) → NoDup (JsMap.keys (JsMap.delete k m)).
Proof. rewrite JsMapFacts.keys_delete. apply NoDup_filter. Qed.

Lemma entries_ok_init : entries_ok init.
Proof. split; simpl; intros *; rewrite lookup_empty; discriminate. Qed.

Lemma entries_ok_step (st : State) (i : Input) :
  entries_ok st → entries_ok (step st i).1.
Proof.
  intros [O1 O2 O3 O4]. destruct i as [s|s ev env|s]; simpl.
  - destruct (connected st s); simpl; by split.
  - destruct (connected st s); [|by split]. destruct ev; simpl; try by split.
    + (* join-room *)
      unfold on_join_room. simpl.
      set (room := match rooms st !! roomId with Some r => r | None => _ end).
      assert (Hroom : rooms st !! roomId = Some room ∨
                      (rooms st !! roomId = None ∧ room_users room = [] ∧
                       room_id room = roomId)).
      { subst room. destruct (rooms st !! roomId); [by left | by right]. }
      split; simpl.
      * intros r rm. rewrite lookup_insert. case_decide; subst; [|apply O1].
        intros [= <-]. simpl. destruct Hroom as [Hr|(_ & _ & Hr)]; eauto.
      * intros r rm. rewrite lookup_insert. case_decide; subst; [|apply O2].
        intros [= <-]. simpl. apply NoDup_keys_set.
        destruct Hroom as [Hr|(_ & -> & _)]; [eauto | constructor].
      * intros r rm t m. rewrite lookup_insert. case_decide; subst;
          [|apply O3].
        intros [= <-]. simpl. destruct (decide (s = t)) as [->|Hne].
        -- rewrite JsMapFacts.get_set_eq. by intros [= <-].
        -- rewrite JsMapFacts.get_set_ne by done.
           destruct Hroom as [Hr|(_ & -> & _)]; [eauto | done].
      * intros t u. rewrite lookup_insert. case_decide; subst.
        -- intros [= <-]. simpl. eexists _, _. rewrite lookup_insert_eq.
           split; [done|]. simpl. rewrite JsMapFacts.get_set_eq. done.
        -- intros Hu. destruct (O4 t u Hu) as (rm & m & Hrm & Hm & Hname).
           destruct (decide (user_roomId u = roomId)) as [Heq|Hne].
           ++ eexists _, m. rewrite Heq, lookup_insert_eq. split; [done|].
              simpl. rewrite JsMapFacts.get_set_ne by congruence.
              subst room. rewrite <- Heq, Hrm. done.
           ++ exists rm, m. by rewrite lookup_insert_ne.
    + (* send-message *)
      unfold on_send_message.
      destruct (users st !! s) as [u|] eqn:Hu; [|by split].
      destruct (rooms st !! user_roomId u) as [room|] eqn:Hroom; [|by split].
      split; simpl.
      * intros r rm. rewrite lookup_insert. case_decide; subst; [|apply O1].
        intros [= <-]. simpl. eauto.
      * intros r rm. rewrite lookup_insert. case_decide; subst; [|apply O2].
        intros [= <-]. simpl. eauto.
      * intros r rm t m. rewrite lookup_insert. case_decide; subst;
          [|apply O3].
        intros [= <-]. simpl. eauto.
      * intros t u' Hu'. destruct (O4 t u' Hu') as (rm & m & Hrm & Hm & Hname).
        destruct (decide (user_roomId u' = user_roomId u)) as [Heq|Hne].
        -- eexists _, m. rewrite Heq, lookup_insert_eq. split; [done|]. simpl.
           rewrite Heq, Hroom in Hrm. by injection Hrm as ->.
        -- exists rm, m. by rewrite lookup_insert_ne.
    + unfold on_start_video_call. destruct (users st !! s); by split.
    + unfold on_end_video_call. destruct (users st !! s); by split.
  - destruct (connected st s); [|by split]. unfold on_disconnect. simpl.
    destruct (users st !! s) as [u|] eqn:Hu; [|by split].
    assert (Hkeep : ∀ t u', delete s (users st) !! t = Some u' →
              t ≠ s ∧ users st !! t = Some u').
    { intros t u'. rewrite lookup_delete. case_decide; [done|].
      intros Ht. split; [congruence | done]. }
    destruct (rooms st !! user_roomId u) as [room|] eqn:Hroom.
    2:{ split; simpl; [done..|]. intros t u' Hu'.
        apply Hkeep in Hu' as [_ Hu']. eauto. }
    case_decide as Hempty; split; simpl.
    + intros r rm. rewrite lookup_delete. case_decide; [done | apply O1].
    + intros r rm. rewrite lookup_delete. case_decide; [done | apply O2].
    + intros r rm t m. rewrite lookup_delete. case_decide; [done | apply O3].
    + intros t u' Hu'. apply Hkeep in Hu' as [Hne Hu'].
      destruct (O4 t u' Hu') as (rm & m & Hrm & Hm & Hname).
      exists rm, m. split; [|done]. rewrite lookup_delete_ne; [done|].
      intros Heq. rewrite <- Heq, Hroom in Hrm. injection Hrm as <-.
      rewrite <- (JsMapFacts.get_delete_ne _ s t) in Hm by congruence.
      unfold JsMap.size in Hempty. apply length_zero_iff_nil in Hempty.
      by rewrite Hempty in Hm.
    + intros r rm. rewrite lookup_insert. case_decide; subst; [|apply O1].
      intros [= <-]. simpl. eauto.
    + intros r rm. rewrite lookup_insert. case_decide; subst; [|apply O2].
      intros [= <-]. simpl. apply NoDup_keys_delete. eauto.
    + intros r rm t m. rewrite lookup_insert. case_decide; subst;
        [|apply O3].
      intros [= <-]. simpl. destruct (decide (s = t)) as [->|Hne].
      * by rewrite JsMapFacts.get_delete_eq.
      * rewrite JsMapFacts.get_delete_ne by done. eauto.
    + intros t u' Hu'. apply Hkeep in Hu' as [Hne Hu'].
      destruct (O4 t u' Hu') as (rm & m & Hrm & Hm & Hname).
      destruct (decide (user_roomId u' = user_roomId u)) as [Heq|Hr].
      * eexists _, m. rewrite Heq, lookup_insert_eq. split; [done|]. simpl.
        rewrite Heq, Hroom in Hrm. injection Hrm as <-.
        by rewrite JsMapFacts.get_delete_ne by congruence.
      * exists rm, m. by rewrite lookup_insert_ne.
Qed.

Lemma entries_ok_run (st : State) (ins : list Input) :
  entries_ok st → entries_ok (run st ins).1.
Proof.
  revert st. induction ins as [|i ins IH]; intros st Hok; [done|].
  rewrite run_cons_state. by apply IH, entries_ok_step.
Qed.

Lemma entries_ok_state_after (ins : list Input) : entries_ok (state_after ins).
Proof. apply entries_ok_run, entries_ok_init. Qed.

Lemma member_ids_of_membership (st : State) (r : string) :
  entries_ok st → member_id <$> membership st r = member_ids st r.
Proof.
  intros Hok. unfold membership, member_ids.
  destruct (rooms st !! r) as [room|] eqn:Hroom; [|done].
  pose proof (ok_member_id _ Hok r room) as Hid. specialize (Hid).
  pose proof (ok_nodup _ Hok r room Hroom) as Hnd.
  assert (Hall : ∀ k m, (k, m) ∈ room_users room → member_id m = k).
  { intros k m Hin. eapply Hid; [done|].
    clear Hid. induction (room_users room) as [|[k' m'] l IH]; simpl in *.
    - by apply elem_of_nil in Hin.
    - apply NoDup_cons in Hnd as [Hk' Hnd].
      apply elem_of_cons in Hin as [[= -> ->]|Hin].
      + by rewrite decide_True.
      + rewrite decide_False; [by apply IH|].
        intros ->. apply Hk'. apply list_elem_of_fmap. by exists (k', m). }
  clear Hid Hnd. unfold JsMap.values, JsMap.keys.
  induction (room_users room) as [|[k m] l IH]; simpl; [done|].
  rewrite (Hall k m) by (by left). f_equal. apply IH.
  intros k' m' Hin. apply Hall. by right.
Qed.

(** X1.  In every state the server reaches, a connection with a [users]
    entry is live, and the room the entry names is stored under that id and
    holds an entry for the connection that carries the connection's id and
    the display name of the [users] entry. *)
Theorem users_entry_matches_membership (ins : list Input) (s : string)
    (u : UserEntry) :
  let st := state_after ins in
  users st !! s = Some u →
  connected st s = true ∧
  ∃ room m, rooms st !! user_roomId u = Some room ∧
    room_id room = user_roomId u ∧
    JsMap.get s (room_users room) = Some m ∧
    member_id m = s ∧ member_username m = user_username u.
Proof.
  intros st Hu. pose proof (entries_ok_state_after ins) as Hok.
  fold st in Hok. split; [by eapply user_entry_connected|].
  destruct (ok_username _ Hok s u Hu) as (room & m & Hroom & Hm & Hname).
  exists room, m. repeat split; try done.
  - by eapply ok_room_id.
  - by eapply ok_member_id.
Qed.

Lemma users_entry_matches_membership_witness :
  connected (state_after two_in_room) "s2" = true.
Proof.
  apply (users_entry_matches_membership two_in_room "s2"
           {| user_roomId := "A"; user_username := "bob" |}).
  vm_compute. reflexivity.
Defined.

(** X2.  In every state the server reaches, the member list of a room
    names no connection twice, and the ids it lists are the keys of the
    room's membership map. *)
Theorem member_list_has_no_duplicates (ins : list Input) (r : string) :
  let st := state_after ins in
  NoDup (member_id <$> membership st r) ∧
  member_id <$> membership st r = member_ids st r.
Proof.
  intros st. pose proof (entries_ok_state_after ins) as Hok. fold st in Hok.
  rewrite member_ids_of_membership by done. split; [|done].
  unfold member_ids. destruct (rooms st !! r) as [room|] eqn:Hroom.
  - by eapply ok_nodup.
  - constructor.
Qed.

(** X3.  In every state the server reaches, the room listing holds the
    summary of every stored room and nothing else; a listed room has at
    least one user, its user count is the number of users listed for it,
    and it is stored in the registry under the id the summary shows. *)
Theorem listing_shows_stored_rooms (ins : list Input) (sm : RoomSummary) :
  let st := state_after ins in
  (sm ∈ api_rooms st ↔ ∃ r room, rooms st !! r = Some room ∧
                                   sm = room_summary room) ∧
  (sm ∈ api_rooms st →
     1 ≤ sum_userCount sm ∧ sum_userCount sm = length (sum_users sm) ∧
     ∃ room, rooms st !! sum_id sm = Some room ∧ sm = room_summary room).
Proof.
  intros st.
  assert (Hiff : sm ∈ api_rooms st ↔
            ∃ r room, rooms st !! r = Some room ∧ sm = room_summary room).
  { unfold api_rooms. rewrite list_elem_of_fmap. split.
    - intros (room & -> & Hin). apply list_elem_of_fmap in Hin as ([r rm] & -> & Hin).
      apply elem_of_map_to_list in Hin. eauto.
    - intros (r & room & Hroom & ->). exists room. split; [done|].
      apply list_elem_of_fmap. exists (r, room). split; [done|].
      by apply elem_of_map_to_list. }
  split; [done|]. intros Hin. apply Hiff in Hin as (r & room & Hroom & ->).
  pose proof (entries_ok_state_after ins) as Hok. fold st in Hok.
  pose proof (invariant_state_after ins) as Hinv. fold st in Hinv.
  simpl. unfold JsMap.size, JsMap.values. rewrite !length_fmap.
  split; [|split; [done|]].
  - pose proof (inv_nonempty _ Hinv r room Hroom).
    destruct (room_users room); simpl; [done | lia].
  - exists room. rewrite (ok_room_id _ Hok r room Hroom). done.
Qed.

Lemma listing_shows_stored_rooms_witness :
  1 ≤ sum_userCount
        (room_summary
           {| room_id := "A";
              room_users := [("s1", joined_member "s1" "ann" (at_time 1));
                             ("s2", joined_member "s2" "bob" (at_time 2))];
              room_messages := []; room_isVideoCall := true |}).
Proof.
  apply (listing_shows_stored_rooms two_in_room).
  vm_compute. left.
Defined.

(** X4.  Whatever the state and the input, a room that is stored before
    and after a step keeps its id and its video flag, and the messages it
    had are a prefix of the messages it has: the history is only ever
    appended to. *)
Theorem room_history_only_grows (st : State) (i : Input) (r : string)
    (room room' : Room) :
  rooms st !! r = Some room → rooms (step st i).1 !! r = Some room' →
  room_id room' = room_id room ∧
  room_isVideoCall room' = room_isVideoCall room ∧
  room_messages room `prefix_of` room_messages room'.
Proof.
  intros Hroom.
  assert (Hsame : rooms st !! r = Some room' →
            room_id room' = room_id room ∧
            room_isVideoCall room' = room_isVideoCall room ∧
            room_messages room `prefix_of` room_messages room').
  { rewrite Hroom. by intros [= <-]. }
  destruct i as [s|s ev env|s]; simpl.
  - by destruct (connected st s).
  - destruct (connected st s); [|done]. destruct ev; simpl; try done.
    + unfold on_join_room. simpl. rewrite lookup_insert. case_decide; [|done].
      subst. rewrite Hroom. by intros [= <-].
    + unfold on_send_message. destruct (users st !! s) as [u|]; [|done].
      destruct (rooms st !! user_roomId u) as [rm|] eqn:Hrm; [|done]. simpl.
      rewrite lookup_insert. case_decide; [|done]. subst.
      rewrite Hroom in Hrm. injection Hrm as <-. intros [= <-]. simpl.
      repeat split. by apply prefix_app_r.
    + unfold on_start_video_call. by destruct (users st !! s).
    + unfold on_end_video_call. by destruct (users st !! s).
  - destruct (connected st s); [|done]. unfold on_disconnect. simpl.
    destruct (users st !! s) as [u|]; [|done].
    destruct (rooms st !! user_roomId u) as [rm|] eqn:Hrm; [|done].
    case_decide; simpl.
    + rewrite lookup_delete. case_decide; [done | done].
    + rewrite lookup_insert. case_decide; [|done]. subst.
      rewrite Hroom in Hrm. injection Hrm as <-. by intros [= <-].
Qed.

Lemma room_history_only_grows_witness :
  [] `prefix_of`
    [message_data "s1" {| user_roomId := "A"; user_username := "ann" |}
       "hi" (at_time 3)].
Proof.
  apply (room_history_only_grows (state_after two_in_room)
           (On "s1" (SendMessage "hi") (at_time 3)) "A"
           {| room_id := "A";
              room_users := [("s1", joined_member "s1" "ann" (at_time 1));
                             ("s2", joined_member "s2" "bob" (at_time 2))];
              room_messages := []; room_isVideoCall := true |}
           {| room_id := "A";
              room_users := [("s1", joined_member "s1" "ann" (at_time 1));
                             ("s2", joined_member "s2" "bob" (at_time 2))];
              room_messages :=
                [message_data "s1"
                   {| user_roomId := "A"; user_username := "ann" |}
                   "hi" (at_time 3)];
              room_isVideoCall := true |}).
  - vm_compute. reflexivity.
  - vm_compute. reflexivity.
Defined.

Lemma sends_in_order (st : State) (s : string) (u : UserEntry) (room : Room)
    (texts : list (string * Env)) :
  is_Some (sockets st !! s) → users st !! s = Some u →
  rooms st !! user_roomId u = Some room →
  run st (sends s texts) =
    ({| rooms :=
          match texts with
          | [] => rooms st
          | _ =>
              <[ user_roomId u :=
                   with_messages
                     (room_messages room ++
                      ((λ te, message_data s u te.1 te.2) <$> texts)) room ]>
                (rooms st)
          end;
        users := users st; sockets := sockets st |},
     (λ te, {| target := ToChannel (user_roomId u);
               event := NewMessage (message_data s u te.1 te.2) |})
       <$> texts).
Proof.
  revert st room. induction texts as [|[msg env] texts IH];
    intros st room Hs Hu Hroom.
  - by destruct st.
  - cbn [sends fmap list_fmap run]. cbn [step].
    rewrite (proj2 (connected_true st s) Hs). cbn [dispatch].
    unfold on_send_message. rewrite Hu, Hroom.
    fold (sends s texts).
    rewrite (IH _ (with_messages (room_messages room ++ [message_data s u msg env]) room));
      [|done|done|by simpl; rewrite lookup_insert_eq].
    simpl. f_equal. f_equal.
    destruct texts as [|te texts]; [done|].
    rewrite insert_insert_eq. unfold with_messages. simpl.
    by rewrite <- app_assoc.
Qed.

(** X5.  In every state the server reaches, the messages a member sends
    one after the other are appended to the history of its room in the
    order sent, each built from the sender's [users] entry; one
    new-message per text is emitted to the room's channel in the same
    order, and nothing else changes. *)
Theorem messages_kept_in_send_order (ins : list Input) (s : string)
    (u : UserEntry) (texts : list (string * Env)) :
  let st := state_after ins in
  let res := run st (sends s texts) in
  users st !! s = Some u →
  ∃ room, rooms st !! user_roomId u = Some room ∧
    (∃ room', rooms res.1 !! user_roomId u = Some room' ∧
       room_messages room' =
         room_messages room ++
         ((λ te, message_data s u te.1 te.2) <$> texts) ∧
       room_users room' = room_users room) ∧
    (∀ r, r ≠ user_roomId u → rooms res.1 !! r = rooms st !! r) ∧
    users res.1 = users st ∧ sockets res.1 = sockets st ∧
    res.2 = (λ te, {| target := ToChannel (user_roomId u);
                      event := NewMessage (message_data s u te.1 te.2) |})
              <$> texts.
Proof.
  intros st res Hu. pose proof (invariant_state_after ins) as Hinv.
  fold st in Hinv.
  destruct (inv_user _ Hinv s u Hu) as [(cs & Hs & _) (room & Hroom & _)].
  exists room. split; [done|]. subst res.
  rewrite (sends_in_order st s u room texts); [|eauto|done|done]. simpl.
  destruct texts as [|te texts]; simpl.
  - repeat split; try done. exists room. by rewrite app_nil_r.
  - repeat split.
    + eexists. rewrite lookup_insert_eq. split; [done|]. done.
    + intros r Hr. by rewrite lookup_insert_ne.
Qed.

Lemma messages_kept_in_send_order_witness :
  (run (state_after two_in_room)
     (sends "s2" [("a", at_time 3); ("b", at_time 4); ("c", at_time 5)])).2 =
  (λ te, {| target := ToChannel "A";
            event := NewMessage
              (message_data "s2"
                 {| user_roomId := "A"; user_username := "bob" |} te.1 te.2) |})
    <$> [("a", at_time 3); ("b", at_time 4); ("c", at_time 5)].
Proof.
  destruct (messages_kept_in_send_order two_in_room "s2"
              {| user_roomId := "A"; user_username := "bob" |}
              [("a", at_time 3); ("b", at_time 4); ("c", at_time 5)])
    as (room & _ & _ & _ & _ & _ & Hout).
  - vm_compute. reflexivity.
  - exact Hout.
Defined.

Lemma no_membership_no_entry (ins : list Input) (s : string) :
  (∀ r, s ∉ member_ids (state_after ins) r) →
  users (state_after ins) !! s = None.
Proof.
  intros Hnot. destruct (users (state_after ins) !! s) as [u|] eqn:Hu; [|done].
  exfalso. apply (Hnot (user_roomId u)). by apply user_entry_member.
Qed.

(** X6.  In every state the server reaches, a connection that is a key of
    no room's membership map is ignored when it sends start-video-call or
    end-video-call (nothing changes, nothing is emitted), and when it
    disconnects nothing is emitted and neither the rooms nor the [users]
    map change. *)
Theorem outsider_events_are_silent (ins : list Input) (s : string) (env : Env) :
  let st := state_after ins in
  (∀ r, s ∉ member_ids st r) →
  step st (On s StartVideoCall env) = (st, []) ∧
  step st (On s EndVideoCall env) = (st, []) ∧
  (step st (Disconnect s)).2 = [] ∧
  rooms (step st (Disconnect s)).1 = rooms st ∧
  users (step st (Disconnect s)).1 = users st ∧
  connected (step st (Disconnect s)).1 s = false.
Proof.
  intros st Hnot. pose proof (no_membership_no_entry ins s Hnot) as Hnone.
  fold st in Hnone. simpl.
  unfold on_start_video_call, on_end_video_call, on_disconnect. simpl.
  rewrite Hnone. destruct (connected st s) eqn:Hc; simpl; repeat split.
  - apply connected_false. simpl. apply lookup_delete_eq.
  - done.
Qed.

Lemma outsider_events_are_silent_witness :
  (step (state_after (Connection "s9" :: two_in_room)) (Disconnect "s9")).2 = [].
Proof.
  apply (outsider_events_are_silent (Connection "s9" :: two_in_room) "s9"
           (at_time 3)).
  intros r Hin. apply elem_of_member_ids in Hin as (room & Hroom & Hget).
  assert (Hdom : dom (rooms (state_after (Connection "s9" :: two_in_room)))
                 = {[ "A" ]}) by (vm_compute; reflexivity).
  assert (Hr : r ∈ dom (rooms (state_after (Connection "s9" :: two_in_room))))
    by (apply elem_of_dom; eauto).
  rewrite Hdom in Hr. apply elem_of_singleton in Hr as ->.
  vm_compute in Hroom. injection Hroom as <-. vm_compute in Hget.
  destruct Hget as [m Hm]. discriminate Hm.
Defined.

(** In every state the server reaches, an event emitted with
    [socket.to] never comes back to the socket that emits it, whatever the
    channel addressed; in particular a joiner is not told of its own join
    by user-joined. *)
Theorem sender_is_not_a_recipient (ins : list Input) (s channel : string) :
  s ∉ recipients (state_after ins) (ToChannelExcept channel s).
Proof.
  simpl. rewrite elem_of_difference. intros [Hin Hnot]. apply Hnot.
  apply elem_of_in_channel in Hin as (cs & Hs & _).
  apply elem_of_in_channel. exists cs. split; [done|].
  eapply inv_own_channel; [apply invariant_state_after | done].
Qed.

(** X7.  In every state the server reaches, the relay emits a directed
    signaling message all the same, as one event carrying the payload and
    the sender's id, addressed to the channel of its target, and leaves
    the state as it is; when the target is neither a live connection nor
    the id of a stored room, or is the sender itself, the event is
    delivered to nobody, and nothing is reported to the sender. *)
Theorem unreachable_target_is_dropped (ins : list Input) (a b : string)
    (ev : ClientEvent) (env : Env) :
  let st := state_after ins in
  connected st a = true → signaling_target ev = Some b →
  (∃ sev, relayed a ev = Some sev ∧ from_user sev = Some a ∧
     step st (On a ev env) =
       (st, [ {| target := ToChannelExcept b a; event := sev |} ])) ∧
  (connected st b = false → rooms st !! b = None →
     recipients st (ToChannelExcept b a) = ∅) ∧
  (a = b → recipients st (ToChannelExcept b a) = ∅).
Proof.
  intros st Hconn Ht. split; [|split].
  - assert (Hsev : ∃ sev, relayed a ev = Some sev ∧ from_user sev = Some a).
    { destruct ev; simpl in *; try discriminate; eauto. }
    destruct Hsev as (sev & Hsev & Hfrom). exists sev.
    split; [done|]. split; [done|]. by apply relay_emits.
  - intros Hb Hroom. apply set_eq. intros t.
    split; [|by intros ?%not_elem_of_empty].
    simpl. rewrite elem_of_difference. intros [Hin _].
    apply (channel_without_room st b t (invariant_state_after ins) Hroom) in Hin
      as Heq.
    subst t. apply elem_of_in_channel in Hin as (cs & Hs & _).
    apply connected_false in Hb. congruence.
  - intros ->. simpl. apply set_eq. intros t.
    rewrite elem_of_difference.
    split; [by intros [? ?] | by intros ?%not_elem_of_empty].
Qed.

Lemma unreachable_target_is_dropped_witness :
  (∃ sev, relayed "s1" (WebrtcOffer "gone" sample_offer) = Some sev ∧
     from_user sev = Some "s1" ∧
     step (state_after two_in_room)
       (On "s1" (WebrtcOffer "gone" sample_offer) (at_time 3)) =
       (state_after two_in_room,
        [ {| target := ToChannelExcept "gone" "s1"; event := sev |} ])) ∧
  recipients (state_after two_in_room) (ToChannelExcept "gone" "s1") = ∅.
Proof.
  pose proof (unreachable_target_is_dropped two_in_room "s1" "gone"
                (WebrtcOffer "gone" sample_offer) (at_time 3)
                ltac:(vm_compute; reflexivity) eq_refl)
    as (Hemit & Hdrop & _).
  split; [exact Hemit|]. apply Hdrop.
  - vm_compute. reflexivity.
  - vm_compute. reflexivity.
Defined.

(** X8.  In every state the server reaches, start-video-call and
    end-video-call of a connection with a [users] entry leave the state as
    it is and emit one video-call-started (with the sender's id and the
    display name of its entry), respectively video-call-ended, to the
    channel of the room the entry names; when no room has the sender's id,
    the event reaches every other connection whose [users] entry names
    that room. *)
Theorem call_events_reach_the_room (ins : list Input) (s : string)
    (u : UserEntry) (env : Env) :
  let st := state_after ins in
  users st !! s = Some u →
  step st (On s StartVideoCall env) =
    (st, [ {| target := ToChannelExcept (user_roomId u) s;
              event := VideoCallStarted s (user_username u) |} ]) ∧
  step st (On s EndVideoCall env) =
    (st, [ {| target := ToChannelExcept (user_roomId u) s;
              event := VideoCallEnded s |} ]) ∧
  (rooms st !! s = None →
   ∀ t u', t ≠ s → users st !! t = Some u' →
     user_roomId u' = user_roomId u →
     t ∈ recipients st (ToChannelExcept (user_roomId u) s)).
Proof.
  intros st Hu. pose proof (invariant_state_after ins) as Hinv.
  fold st in Hinv.
  pose proof (user_entry_connected ins s u Hu) as Hconn. fold st in Hconn.
  simpl. rewrite Hconn. simpl.
  unfold on_start_video_call, on_end_video_call. rewrite Hu.
  split; [done|]. split; [done|].
  intros Hnoroom t u' Hne Hu' Heq. apply elem_of_difference. split.
  - rewrite <- Heq. by apply user_entry_in_channel.
  - intros Hin. by apply (channel_without_room st s t Hinv Hnoroom) in Hin.
Qed.

Lemma call_events_reach_the_room_witness :
  "s2" ∈ recipients (state_after two_in_room) (ToChannelExcept "A" "s1").
Proof.
  apply (proj2 (proj2 (call_events_reach_the_room two_in_room "s1"
                         {| user_roomId := "A"; user_username := "ann" |}
                         (at_time 3) ltac:(vm_compute; reflexivity)))
           ltac:(vm_compute; reflexivity) "s2"
           {| user_roomId := "A"; user_username := "bob" |}).
  - discriminate.
  - vm_compute. reflexivity.
  - reflexivity.
Defined.

Lemma join_existing_emits (st : State) (t r name : string) (v : option bool)
    (env : Env) (room : Room) :
  connected st t = true → rooms st !! r = Some room →
  let res := step st (On t (JoinRoom r name v) env) in
  res.2 =
    [ {| target := ToChannelExcept r t;
         event := UserJoined t name (membership res.1 r) |};
      {| target := ToSocket t;
         event := RoomJoined r (membership res.1 r) (room_messages room)
                    (room_isVideoCall room) |} ].
Proof.
  intros Ht Hroom. simpl. rewrite Ht. simpl. unfold on_join_room, membership.
  rewrite Hroom. simpl. by rewrite lookup_insert_eq.
Qed.

(** X9.  In every state the server reaches, a connection that joins a
    room after a member has sent messages to it is handed, in room-joined,
    the room's earlier history followed by those messages in the order
    sent, and the video flag the room already had, whatever flag the join
    asks for. *)
Theorem late_joiner_gets_history (ins : list Input) (s t name : string)
    (u : UserEntry) (texts : list (string * Env)) (v : option bool)
    (env : Env) :
  let st := state_after ins in
  let st1 := (run st (sends s texts)).1 in
  let res := step st1 (On t (JoinRoom (user_roomId u) name v) env) in
  users st !! s = Some u → connected st t = true →
  ∃ room, rooms st !! user_roomId u = Some room ∧
    res.2 =
      [ {| target := ToChannelExcept (user_roomId u) t;
           event := UserJoined t name (membership res.1 (user_roomId u)) |};
        {| target := ToSocket t;
           event := RoomJoined (user_roomId u)
                      (membership res.1 (user_roomId u))
                      (room_messages room ++
                       ((λ te, message_data s u te.1 te.2) <$> texts))
                      (room_isVideoCall room) |} ].
Proof.
  intros st st1 res Hu Ht. pose proof (invariant_state_after ins) as Hinv.
  fold st in Hinv.
  destruct (inv_user _ Hinv s u Hu) as [(cs & Hs & _) (room & Hroom & _)].
  exists room. split; [done|]. subst res st1.
  rewrite (sends_in_order st s u room texts); [|eauto|done|done].
  set (sent := (λ te : string * Env, message_data s u te.1 te.2) <$> texts).
  set (st1 := {| rooms := _; users := users st; sockets := sockets st |}).
  cbn [fst].
  assert (Hroom1 : rooms st1 !! user_roomId u =
                     Some (with_messages (room_messages room ++ sent) room)).
  { subst st1 sent. cbn [rooms]. destruct texts as [|te texts].
    - rewrite Hroom. simpl. rewrite app_nil_r. by destruct room.
    - by rewrite lookup_insert_eq. }
  by rewrite (join_existing_emits st1 t (user_roomId u) name v env _ Ht Hroom1).
Qed.

Lemma late_joiner_gets_history_witness :
  ∃ room, rooms (state_after (Connection "s3" :: two_in_room)) !! "A"
            = Some room ∧
    (step (run (state_after (Connection "s3" :: two_in_room))
             (sends "s1" [("a", at_time 3); ("b", at_time 4)])).1
       (On "s3" (JoinRoom "A" "cy" None) (at_time 5))).2 !! 1 =
    Some {| target := ToSocket "s3";
            event := RoomJoined "A"
              (membership
                 (step (run (state_after (Connection "s3" :: two_in_room))
                          (sends "s1" [("a", at_time 3); ("b", at_time 4)])).1
                    (On "s3" (JoinRoom "A" "cy" None) (at_time 5))).1 "A")
              (room_messages room ++
               ((λ te, message_data "s1"
                         {| user_roomId := "A"; user_username := "ann" |}
                         te.1 te.2)
                  <$> [("a", at_time 3); ("b", at_time 4)]))
              (room_isVideoCall room) |}.
Proof.
  destruct (late_joiner_gets_history (Connection "s3" :: two_in_room)
              "s1" "s3" "cy" {| user_roomId := "A"; user_username := "ann" |}
              [("a", at_time 3); ("b", at_time 4)] None (at_time 5))
    as (room & Hroom & Hout).
  - vm_compute. reflexivity.
  - vm_compute. reflexivity.
  - exists room. split; [exact Hroom|].
    cbn [user_roomId] in Hout. rewrite Hout. reflexivity.
Defined.

Lemma length_delete_present {V} (m : list (string * V)) (k : string) :
  NoDup (JsMap.keys m) → is_Some (JsMap.get k m) →
  S (length (JsMap.delete k m)) = length m.
Proof.
  unfold JsMap.keys. induction m as [|[k' v'] m IH]; simpl.
  - intros _ [? ?]. discriminate.
  - intros Hnd Hget. apply NoDup_cons in Hnd as [Hk' Hnd].
    case_decide as Hk; subst.
    + f_equal. clear IH Hget Hnd.
      induction m as [|[k0 v0] m IH]; simpl; [done|].
      rewrite decide_False.
      * simpl. f_equal. apply IH. intros Hin. apply Hk'. simpl. by right.
      * intros ->. apply Hk'. simpl. by left.
    + simpl. f_equal. by apply IH.
Qed.

(** X10.  A join makes the member list of the room one longer when the
    connection is not yet a key of it, and leaves its length as it is when
    the connection is (a repeated join).  In every state the server
    reaches, the disconnect of a connection with a [users] entry makes the
    member list of the room the entry names exactly one shorter. *)
Theorem member_count_bookkeeping (ins : list Input) (s r name : string)
    (v : option bool) (env : Env) :
  let st := state_after ins in
  let joined := (on_join_room s r name v env st).1 in
  (s ∉ member_ids st r →
     length (membership joined r) = S (length (membership st r))) ∧
  (s ∈ member_ids st r →
     length (membership joined r) = length (membership st r)) ∧
  (∀ u, users st !! s = Some u →
     S (length (membership (step st (Disconnect s)).1 (user_roomId u))) =
       length (membership st (user_roomId u))).
Proof.
  intros st joined.
  assert (Hjoin : membership joined r =
            JsMap.values (JsMap.set s (joined_member s name env)
              match rooms st !! r with
              | Some room => room_users room
              | None => []
              end)).
  { subst joined. unfold membership, on_join_room. simpl.
    rewrite lookup_insert_eq. simpl. by destruct (rooms st !! r). }
  split; [|split].
  - intros Hnot. rewrite Hjoin. clear Hjoin.
    unfold membership, member_ids, JsMap.values in *.
    destruct (rooms st !! r) as [room|]; [|done]. rewrite !length_fmap.
    apply JsMapFacts.size_set_absent. by apply JsMapFacts.not_elem_of_keys.
  - intros Hin. rewrite Hjoin. clear Hjoin.
    unfold membership, member_ids, JsMap.values in *.
    destruct (rooms st !! r) as [room|]; [|by apply elem_of_nil in Hin].
    rewrite !length_fmap.
    apply JsMapFacts.size_set_present. by apply JsMapFacts.elem_of_keys.
  - intros u Hu. pose proof (invariant_state_after ins) as Hinv.
    pose proof (entries_ok_state_after ins) as Hok. fold st in Hinv, Hok.
    pose proof (user_entry_connected ins s u Hu) as Hconn. fold st in Hconn.
    destruct (inv_user _ Hinv s u Hu) as [_ (room & Hroom & Hin)].
    pose proof (length_delete_present (room_users room) s
                  (ok_nodup _ Hok _ _ Hroom) Hin) as Hlen.
    simpl. rewrite Hconn. unfold on_disconnect, membership. simpl.
    rewrite Hu, Hroom. unfold JsMap.values, JsMap.size.
    case_decide as Hempty; simpl.
    + rewrite lookup_delete_eq. rewrite length_fmap. simpl. lia.
    + rewrite lookup_insert_eq. simpl. by rewrite !length_fmap.
Qed.

Lemma member_count_bookkeeping_witness :
  length (membership
            (on_join_room "s2" "A" "rob" None (at_time 9)
               (state_after two_in_room)).1 "A") =
  length (membership (state_after two_in_room) "A").
Proof.
  apply (member_count_bookkeeping two_in_room "s2" "A" "rob" None (at_time 9)).
  vm_compute. right. left.
Defined.

(** X11.  In every state the server reaches, when a connection whose
    [users] entry names a room is a key of no other room's membership map,
    its disconnect leaves it a key of no room's membership map at all. *)
Theorem single_room_leave_is_clean (ins : list Input) (s : string)
    (u : UserEntry) :
  let st := state_after ins in
  users st !! s = Some u →
  (∀ r, r ≠ user_roomId u → s ∉ member_ids st r) →
  ∀ r, s ∉ member_ids (step st (Disconnect s)).1 r.
Proof.
  intros st Hu Honly r. pose proof (invariant_state_after ins) as Hinv.
  fold st in Hinv.
  pose proof (user_entry_connected ins s u Hu) as Hconn. fold st in Hconn.
  destruct (inv_user _ Hinv s u Hu) as [_ (room & Hroom & _)].
  rewrite elem_of_member_ids. intros (rm & Hrm & Hin). revert Hrm.
  simpl. rewrite Hconn. unfold on_disconnect. simpl. rewrite Hu, Hroom.
  assert (Hother : r ≠ user_roomId u → rooms st !! r = Some rm → False).
  { intros Hne Hrm. apply (Honly r Hne). apply elem_of_member_ids. eauto. }
  case_decide; simpl.
  - rewrite lookup_delete. case_decide; [done|]. intros Hrm.
    apply Hother; [congruence | done].
  - rewrite lookup_insert. case_decide; subst.
    + intros [= <-]. simpl in Hin. rewrite JsMapFacts.get_delete_eq in Hin.
      by destruct Hin.
    + intros Hrm. apply Hother; [congruence | done].
Qed.

Lemma single_room_leave_is_clean_witness :
  "s2" ∉ member_ids (step (state_after two_in_room) (Disconnect "s2")).1 "A".
Proof.
  apply (single_room_leave_is_clean two_in_room "s2"
           {| user_roomId := "A"; user_username := "bob" |}).
  - vm_compute. reflexivity.
  - intros r Hne Hin. apply elem_of_member_ids in Hin as (room & Hroom & _).
    assert (Hdom : dom (rooms (state_after two_in_room)) = {[ "A" ]})
      by (vm_compute; reflexivity).
    assert (Hr : r ∈ dom (rooms (state_after two_in_room)))
      by (apply elem_of_dom; eauto).
    rewrite Hdom in Hr. apply elem_of_singleton in Hr. exact (Hne Hr).
Defined.

(** X12.  Whatever the state and the input, the entry of a room in the
    registry changes in a step only when the input is a join to that room,
    or a send-message or the disconnect of a connection whose [users]
    entry names that room. *)
Theorem room_changes_only_from_its_members (st : State) (i : Input)
    (r : string) :
  rooms (step st i).1 !! r ≠ rooms st !! r →
  ∃ s, (∃ name v env, i = On s (JoinRoom r name v) env) ∨
       (((∃ msg env, i = On s (SendMessage msg) env) ∨ i = Disconnect s) ∧
        ∃ u, users st !! s = Some u ∧ user_roomId u = r).
Proof.
  destruct i as [s|s ev env|s]; simpl.
  - by destruct (connected st s).
  - destruct (connected st s); [|done]. destruct ev; simpl; try done.
    + unfold on_join_room. simpl. rewrite lookup_insert.
      case_decide; [|done]. subst. intros _. exists s. left. eauto.
    + unfold on_send_message. destruct (users st !! s) as [u|] eqn:Hu; [|done].
      destruct (rooms st !! user_roomId u); [|done]. simpl.
      rewrite lookup_insert. case_decide; [|done]. subst. intros _.
      exists s. right. eauto 10.
    + unfold on_start_video_call. by destruct (users st !! s).
    + unfold on_end_video_call. by destruct (users st !! s).
  - destruct (connected st s); [|done]. unfold on_disconnect. simpl.
    destruct (users st !! s) as [u|] eqn:Hu; [|done].
    destruct (rooms st !! user_roomId u); [|done].
    case_decide; simpl.
    + rewrite lookup_delete. case_decide; [|done]. subst. intros _.
      exists s. right. eauto 10.
    + rewrite lookup_insert. case_decide; [|done]. subst. intros _.
      exists s. right. eauto 10.
Qed.

Lemma room_changes_only_from_its_members_witness :
  ∃ s, (∃ name v env,
          On "s2" (SendMessage "hi") (at_time 3) = On s (JoinRoom "A" name v) env) ∨
       (((∃ msg env,
            On "s2" (SendMessage "hi") (at_time 3) = On s (SendMessage msg) env) ∨
         On "s2" (SendMessage "hi") (at_time 3) = Disconnect s) ∧
        ∃ u, users (state_after two_in_room) !! s = Some u ∧ user_roomId u = "A").
Proof.
  apply (room_changes_only_from_its_members (state_after two_in_room)
           (On "s2" (SendMessage "hi") (at_time 3)) "A").
  vm_compute. discriminate.
Defined.

End RegistryMore.

(** ** More on the session coordinator *)

Module CoordinatorMore.
Import Client Coordinator CoordinatorFacts Session.

Lemma well_formed_init (sock : option string) : well_formed (init sock).
Proof.
  split; simpl; done.
Qed.

Lemma link_extend (st : State) (cs' : list RTCPeerConnection) :
  (∀ h pc, connections st !! h = Some pc →
     ∃ pc', cs' !! h = Some pc' ∧ rtc_userId pc' = rtc_userId pc) →
  ∀ u peer,
    (userId peer = u ∧
     ∃ pc, connections st !! connection peer = Some pc ∧ rtc_userId pc = u) →
    userId peer = u ∧ ∃ pc, cs' !! connection peer = Some pc ∧ rtc_userId pc = u.
Proof.
  intros Hext u peer [Hu (pc & Hpc & Hid)]. split; [done|].
  destruct (Hext _ _ Hpc) as (pc' & Hpc' & Hid'). exists pc'.
  split; [done | congruence].
Qed.

Lemma invoke_keeps (h : nat) (c : RtcCall) (st : State) (k : nat)
    (pc : RTCPeerConnection) :
  connections st !! k = Some pc →
  ∃ pc', connections (invoke h c st) !! k = Some pc' ∧
         rtc_userId pc' = rtc_userId pc ∧
         rtc_calls pc `prefix_of` rtc_calls pc'.
Proof.
  intros Hk. unfold invoke. simpl. destruct (decide (h = k)) as [->|Hne].
  - rewrite list_lookup_alter_eq, Hk. simpl. eexists. split; [done|].
    split; [done|]. simpl. by apply prefix_app_r.
  - rewrite list_lookup_alter_ne by done. eauto.
Qed.

Lemma close_all_keeps (l : list PeerConnection) (st : State) (k : nat)
    (pc : RTCPeerConnection) :
  connections st !! k = Some pc →
  ∃ pc', connections (foldl (λ s peer, invoke (connection peer) Close s) st l)
           !! k = Some pc' ∧
         rtc_userId pc' = rtc_userId pc ∧
         rtc_calls pc `prefix_of` rtc_calls pc'.
Proof.
  revert st pc. induction l as [|peer l IH]; intros st pc Hk; simpl.
  - eauto.
  - destruct (invoke_keeps (connection peer) Close st k pc Hk)
      as (pc1 & Hpc1 & Hid1 & Hpre1).
    destruct (IH _ _ Hpc1) as (pc2 & Hpc2 & Hid2 & Hpre2).
    exists pc2. split; [done|]. split; [congruence|]. by etrans.
Qed.

Lemma close_all_fields (l : list PeerConnection) (st : State) :
  let st' := foldl (λ s peer, invoke (connection peer) Close s) st l in
  socket st' = socket st ∧ isCallActive st' = isCallActive st ∧
  peers st' = peers st ∧ localStream st' = localStream st ∧
  remoteStreams st' = remoteStreams st ∧
  localStreamRef st' = localStreamRef st ∧ peersRef st' = peersRef st ∧
  stopped st' = stopped st ∧ outbox st' = outbox st ∧
  length (connections st') = length (connections st).
Proof.
  revert st. induction l as [|peer l IH]; intros st; simpl; [done|].
  destruct (IH (invoke (connection peer) Close st))
    as (H1 & H2 & H3 & H4 & H5 & H6 & H7 & H8 & H9 & H10).
  rewrite H1, H2, H3, H4, H5, H6, H7, H8, H9, H10. simpl.
  by rewrite length_alter.
Qed.

(** Every handler keeps the platform objects it finds: none is removed,
    the user it was made for stays, and calls are only added. *)
Lemma step_keeps_connections (st : State) (i : Input) (k : nat)
    (pc : RTCPeerConnection) :
  connections st !! k = Some pc →
  ∃ pc', connections (step st i) !! k = Some pc' ∧
         rtc_userId pc' = rtc_userId pc ∧
         rtc_calls pc `prefix_of` rtc_calls pc'.
Proof.
  intros Hk.
  assert (Hsame : ∃ pc', connections st !! k = Some pc' ∧
            rtc_userId pc' = rtc_userId pc ∧
            rtc_calls pc `prefix_of` rtc_calls pc') by eauto.
  assert (Hoffer : ∀ answer offer user,
    ∃ pc', connections (handleOffer answer offer user st) !! k = Some pc' ∧
           rtc_userId pc' = rtc_userId pc ∧
           rtc_calls pc `prefix_of` rtc_calls pc').
  { intros. rewrite handleOffer_connections.
    exists pc. split; [by apply lookup_app_l_Some | done]. }
  assert (Hinit : ∀ offer user,
    ∃ pc', connections (initiateCall offer user st) !! k = Some pc' ∧
           rtc_userId pc' = rtc_userId pc ∧
           rtc_calls pc `prefix_of` rtc_calls pc').
  { intros. rewrite initiateCall_connections.
    exists pc. split; [by apply lookup_app_l_Some | done]. }
  destruct i as [ev created|media| |h stream|h cand]; simpl.
  - unfold on_server_event. destruct (socket st); [|done].
    destruct ev; try done.
    + unfold on_user_joined. by destruct (isCallActive st).
    + unfold handleAnswer.
      destruct (JsMap.get fromUserId (peersRef st)); [|done].
      by apply invoke_keeps.
    + unfold handleIceCandidate.
      destruct (JsMap.get fromUserId (peersRef st)); [|done].
      by apply invoke_keeps.
    + unfold on_video_call_started.
      by destruct (isCallActive st && _).
    + unfold on_user_left. destruct (JsMap.get userId0 (peersRef st)); [|done].
      simpl. destruct (invoke_keeps (connection p) Close st k pc Hk)
        as (pc' & Hpc' & ?). eauto.
  - unfold startCall. destruct media; [|done]. unfold emit. simpl.
    by destruct (socket st).
  - unfold endCall.
    set (st1 := match localStreamRef st with Some _ => _ | None => st end).
    assert (Hk1 : connections st1 !! k = Some pc).
    { subst st1. by destruct (localStreamRef st). }
    destruct (close_all_keeps (JsMap.values (peersRef st1)) st1 k pc Hk1)
      as (pc' & Hpc' & ?).
    exists pc'. split; [|done]. unfold emit. cbn [socket].
    match goal with
    | |- context [match ?x with Some _ => _ | None => _ end] => destruct x
    end; exact Hpc'.
  - unfold ontrack. by destruct (connections st !! h).
  - unfold onicecandidate. destruct (connections st !! h); [|done].
    destruct cand; [|done]. unfold emit. by destruct (socket st).
Qed.

Lemma invoke_fields (h : nat) (c : RtcCall) (st : State) :
  socket (invoke h c st) = socket st ∧
  isCallActive (invoke h c st) = isCallActive st ∧
  peers (invoke h c st) = peers st ∧
  localStream (invoke h c st) = localStream st ∧
  remoteStreams (invoke h c st) = remoteStreams st ∧
  localStreamRef (invoke h c st) = localStreamRef st ∧
  peersRef (invoke h c st) = peersRef st ∧
  outbox (invoke h c st) = outbox st.
Proof. done. Qed.

Lemma handleOffer_fields (answer offer : RTCSessionDescriptionInit)
    (user : string) (st : State) :
  let st' := handleOffer answer offer user st in
  socket st' = socket st ∧ isCallActive st' = isCallActive st ∧
  localStream st' = localStream st ∧
  remoteStreams st' = remoteStreams st ∧
  localStreamRef st' = localStreamRef st.
Proof.
  unfold handleOffer. rewrite createPeerConnection_spec. unfold emit. simpl.
  destruct (socket st) eqn:Hs; simpl; rewrite ?Hs; done.
Qed.

Lemma initiateCall_fields (offer : RTCSessionDescriptionInit)
    (user : string) (st : State) :
  let st' := initiateCall offer user st in
  socket st' = socket st ∧ isCallActive st' = isCallActive st ∧
  localStream st' = localStream st ∧
  remoteStreams st' = remoteStreams st ∧
  localStreamRef st' = localStreamRef st ∧
  peers st' = peersRef st'.
Proof.
  unfold initiateCall. rewrite createPeerConnection_spec. unfold emit. simpl.
  destruct (socket st) eqn:Hs; simpl; rewrite ?Hs; done.
Qed.

Lemma well_formed_new_link (st st' : State) (user : string)
    (calls : list RtcCall) :
  well_formed st →
  socket st' = socket st → isCallActive st' = isCallActive st →
  localStream st' = localStream st → localStreamRef st' = localStreamRef st →
  peers st' = peersRef st' →
  peersRef st' =
    JsMap.set user {| userId := user; connection := length (connections st) |}
      (peersRef st) →
  connections st' =
    connections st ++ [ {| rtc_userId := user; rtc_calls := calls |} ] →
  well_formed st'.
Proof.
  intros [W1 W2 W3 W4] Hs Ha Hl Hr Hp Hpr Hc. split.
  - done.
  - congruence.
  - by rewrite Ha, Hr.
  - intros u peer. rewrite Hpr, Hc. destruct (decide (user = u)) as [->|Hne].
    + rewrite JsMapFacts.get_set_eq. intros [= <-]. simpl. split; [done|].
      rewrite lookup_last. eauto.
    + rewrite JsMapFacts.get_set_ne by done. intros Hget.
      destruct (W4 u peer Hget) as [Hu (pc & Hpc & Hid)]. split; [done|].
      exists pc. split; [by apply lookup_app_l_Some | done].
Qed.

Lemma well_formed_invoke (h : nat) (c : RtcCall) (st : State) :
  well_formed st → well_formed (invoke h c st).
Proof.
  intros [W1 W2 W3 W4]. split; try done.
  intros u peer Hget. destruct (W4 u peer Hget) as [Hu (pc & Hpc & Hid)].
  split; [done|].
  destruct (invoke_keeps h c st _ _ Hpc) as (pc' & Hpc' & Hid' & _).
  exists pc'. split; [done | congruence].
Qed.

Lemma well_formed_emit (ev : ClientEvent) (st : State) :
  well_formed st → well_formed (emit ev st).
Proof. intros [W1 W2 W3 W4]. unfold emit. destruct (socket st); by split. Qed.

Lemma endCall_fields (st : State) :
  let st' := endCall st in
  socket st' = socket st ∧ isCallActive st' = false ∧
  peers st' = [] ∧ peersRef st' = [] ∧ remoteStreams st' = [] ∧
  localStreamRef st' = None ∧
  localStream st' =
    match localStreamRef st with Some _ => None | None => localStream st end ∧
  stopped st' =
    stopped st ++
    match localStreamRef st with Some m => stream_tracks m | None => [] end ∧
  outbox st' =
    outbox st ++ match socket st with Some _ => [EndVideoCall] | None => [] end ∧
  length (connections st') = length (connections st).
Proof.
  unfold endCall.
  set (st1 := match localStreamRef st with Some _ => _ | None => st end).
  assert (H1 : socket st1 = socket st ∧ outbox st1 = outbox st ∧
               connections st1 = connections st ∧
               localStreamRef st1 = None ∧
               localStream st1 =
                 match localStreamRef st with
                 | Some _ => None | None => localStream st end ∧
               stopped st1 =
                 stopped st ++
                 match localStreamRef st with
                 | Some m => stream_tracks m | None => [] end).
  { subst st1. destruct (localStreamRef st) eqn:Hl; simpl;
      rewrite ?app_nil_r; done. }
  destruct H1 as (Hs1 & Ho1 & Hc1 & Hr1 & Hl1 & Ht1).
  generalize dependent st1. intros st1 Hs1 Ho1 Hc1 Hr1 Hl1 Ht1.
  destruct (close_all_fields (JsMap.values (peersRef st1)) st1)
    as (Hs & _ & _ & Hls & _ & Hlr & _ & Hst & Hout & Hlen).
  unfold emit. cbn [socket]. rewrite Hs, Hs1.
  destruct (socket st); simpl; rewrite ?app_nil_r;
    rewrite ?Hls, ?Hlr, ?Hst, ?Hout, ?Hlen, ?Hs, ?Hs1, ?Ho1, ?Hc1, ?Hr1,
      ?Hl1, ?Ht1; done.
Qed.

Lemma well_formed_step (st : State) (i : Input) :
  well_formed st → well_formed (step st i).
Proof.
  intros Hwf.
  assert (Hoffer : ∀ answer offer user,
            well_formed (handleOffer answer offer user st)).
  { intros. destruct (handleOffer_fields answer offer user st)
      as (? & ? & ? & ? & ?).
    eapply well_formed_new_link; eauto using handleOffer_peers,
      handleOffer_peersRef, handleOffer_connections. }
  assert (Hinit : ∀ offer user, well_formed (initiateCall offer user st)).
  { intros. destruct (initiateCall_fields offer user st)
      as (? & ? & ? & ? & ? & ?).
    eapply well_formed_new_link; eauto using initiateCall_peersRef,
      initiateCall_connections. }
  destruct i as [ev created|media| |h stream|h cand]; simpl.
  - unfold on_server_event. destruct (socket st); [|done].
    destruct ev; try done.
    + unfold on_user_joined. by destruct (isCallActive st).
    + unfold handleAnswer.
      destruct (JsMap.get fromUserId (peersRef st)); [|done].
      by apply well_formed_invoke.
    + unfold handleIceCandidate.
      destruct (JsMap.get fromUserId (peersRef st)); [|done].
      by apply well_formed_invoke.
    + unfold on_video_call_started. by destruct (isCallActive st && _).
    + unfold on_user_left.
      destruct (JsMap.get userId0 (peersRef st)) as [peer|]; [|done].
      pose proof (well_formed_invoke (connection peer) Close st Hwf)
        as [W1 W2 W3 W4].
      split; simpl; try done.
      intros u p. destruct (decide (userId0 = u)) as [->|Hne].
      * by rewrite JsMapFacts.get_delete_eq.
      * rewrite JsMapFacts.get_delete_ne by done. apply W4.
  - unfold startCall. destruct media as [stream|]; [|done].
    apply well_formed_emit. destruct Hwf as [W1 W2 W3 W4].
    split; simpl; done.
  - destruct (endCall_fields st)
      as (_ & Ha & Hp & Hpr & _ & Hlr & Hls & _).
    destruct Hwf as [W1 W2 W3 W4]. split.
    + by rewrite Hp, Hpr.
    + rewrite Hls, Hlr. destruct (localStreamRef st); [done | by rewrite W2].
    + rewrite Ha, Hlr. split; [done | by intros [? ?]].
    + intros u peer. by rewrite Hpr.
  - unfold ontrack. destruct (connections st !! h); [|done].
    destruct Hwf as [W1 W2 W3 W4]. by split.
  - unfold onicecandidate. destruct (connections st !! h); [|done].
    destruct cand; [|done]. by apply well_formed_emit.
Qed.

Lemma well_formed_run (st : State) (ins : list Input) :
  well_formed st → well_formed (run st ins).
Proof.
  revert st. induction ins as [|i ins IH]; intros st Hwf; [done|].
  simpl. by apply IH, well_formed_step.
Qed.

Lemma emit_socket (ev : ClientEvent) (st : State) :
  socket (emit ev st) = socket st.
Proof. unfold emit. by destruct (socket st) eqn:Hs. Qed.

Lemma step_socket (st : State) (i : Input) : socket (step st i) = socket st.
Proof.
  destruct i as [ev created|media| |h stream|h cand]; simpl.
  - unfold on_server_event. destruct (socket st) eqn:Hs; [|done].
    destruct ev; try done.
    + unfold on_user_joined. destruct (isCallActive st); [|done].
      by destruct (initiateCall_fields created userId0 st) as (-> & _).
    + by destruct (handleOffer_fields created offer fromUserId st) as (-> & _).
    + unfold handleAnswer. by destruct (JsMap.get fromUserId (peersRef st)).
    + unfold handleIceCandidate.
      by destruct (JsMap.get fromUserId (peersRef st)).
    + unfold on_video_call_started. destruct (isCallActive st && _); [|done].
      by destruct (initiateCall_fields created initiatorId st) as (-> & _).
    + unfold on_user_left. by destruct (JsMap.get userId0 (peersRef st)).
  - unfold startCall. destruct media; [|done]. by rewrite emit_socket.
  - by destruct (endCall_fields st) as (-> & _).
  - unfold ontrack. by destruct (connections st !! h).
  - unfold onicecandidate. destruct (connections st !! h); [|done].
    destruct cand; [|done]. by rewrite emit_socket.
Qed.

Lemma run_socket (st : State) (ins : list Session.Input) :
  socket (run st ins) = socket st.
Proof.
  revert st. induction ins as [|i ins IH]; intros st; [done|]. simpl.
  by rewrite IH, step_socket.
Qed.

(** X13.  In every state the coordinator reaches, the React copies of the
    peer map and of the local stream equal the refs, a call is active
    exactly while the local media are held, the socket is the one it
    started with, and the peer connection of every link is stored and was
    made for the user of the link. *)
Theorem coordinator_state_is_consistent (sock : option string)
    (ins : list Session.Input) :
  let st := Session.state_after sock ins in
  peers st = peersRef st ∧ localStream st = localStreamRef st ∧
  (isCallActive st = true ↔ is_Some (localStreamRef st)) ∧
  socket st = sock ∧
  (∀ u peer, JsMap.get u (peersRef st) = Some peer →
     userId peer = u ∧
     ∃ pc, connections st !! connection peer = Some pc ∧ rtc_userId pc = u).
Proof.
  intros st.
  destruct (well_formed_run (init sock) ins (well_formed_init sock))
    as [W1 W2 W3 W4].
  split; [done|]. split; [done|]. split; [done|]. split; [|done].
  apply run_socket.
Qed.

Lemma coordinator_state_is_consistent_witness :
  userId {| userId := "s2"; connection := 0 |} = "s2" ∧
  ∃ pc, connections (Session.state_after (Some "s1") linked_inputs) !! 0
          = Some pc ∧ rtc_userId pc = "s2".
Proof.
  apply (coordinator_state_is_consistent (Some "s1") linked_inputs).
  vm_compute. reflexivity.
Defined.

Lemma run_keeps_connections (st : State) (ins : list Session.Input) (k : nat)
    (pc : RTCPeerConnection) :
  connections st !! k = Some pc →
  ∃ pc', connections (run st ins) !! k = Some pc' ∧
         rtc_userId pc' = rtc_userId pc ∧
         rtc_calls pc `prefix_of` rtc_calls pc'.
Proof.
  revert st pc. induction ins as [|i ins IH]; intros st pc Hk; simpl.
  - eauto.
  - destruct (step_keeps_connections st i k pc Hk) as (pc1 & Hpc1 & Hid1 & Hpre1).
    destruct (IH _ _ Hpc1) as (pc2 & Hpc2 & Hid2 & Hpre2).
    exists pc2. split; [done|]. split; [congruence | by etrans].
Qed.

Lemma closed_prefix (pc pc' : RTCPeerConnection) :
  rtc_calls pc `prefix_of` rtc_calls pc' → closed pc = true → closed pc' = true.
Proof.
  intros [l Hl]. unfold closed. rewrite !bool_decide_eq_true, Hl, elem_of_app.
  by left.
Qed.

Lemma close_all_closes (l : list PeerConnection) (st : State)
    (peer : PeerConnection) (pc : RTCPeerConnection) :
  peer ∈ l → connections st !! connection peer = Some pc →
  ∃ pc', connections (foldl (λ s p, invoke (connection p) Close s) st l)
           !! connection peer = Some pc' ∧
         closed pc' = true.
Proof.
  revert st pc. induction l as [|p l IH]; intros st pc Hin Hk.
  - by apply elem_of_nil in Hin.
  - simpl. apply elem_of_cons in Hin as [->|Hin].
    + assert (Hk1 : connections (invoke (connection p) Close st)
                      !! connection p = Some (record_call Close pc)).
      { by rewrite invoke_lookup, Hk. }
      destruct (close_all_keeps l _ _ _ Hk1) as (pc' & Hpc' & _ & Hpre).
      exists pc'. split; [done|].
      eapply closed_prefix; [done | apply closed_record_close].
    + destruct (invoke_keeps (connection p) Close st _ _ Hk)
        as (pc1 & Hpc1 & _).
      by eapply IH.
Qed.

Lemma close_all_connections_ext (l : list PeerConnection) (st st1 : State) :
  connections st1 = connections st →
  connections (foldl (λ s p, invoke (connection p) Close s) st1 l) =
  connections (foldl (λ s p, invoke (connection p) Close s) st l).
Proof.
  revert st st1. induction l as [|p l IH]; intros st st1 Hc; simpl; [done|].
  apply IH. simpl. by rewrite Hc.
Qed.

Lemma endCall_connections (st : State) :
  connections (endCall st) =
    connections (foldl (λ s p, invoke (connection p) Close s) st
                   (JsMap.values (peersRef st))).
Proof.
  unfold endCall.
  set (st1 := match localStreamRef st with Some _ => _ | None => st end).
  assert (Hp : peersRef st1 = peersRef st)
    by (subst st1; by destruct (localStreamRef st)).
  assert (Hc : connections st1 = connections st)
    by (subst st1; by destruct (localStreamRef st)).
  rewrite Hp. clear Hp. generalize dependent st1. intros st1 Hc.
  rewrite <- (close_all_connections_ext _ st st1 Hc).
  unfold emit. cbn [socket].
  match goal with
  | |- context [match ?x with Some _ => _ | None => _ end] => by destruct x
  end.
Qed.

(** X15.  Ending a call marks the call inactive, empties the peer map, its
    React copy and the remote streams, drops the local stream after
    stopping each of its tracks, emits end-video-call when there is a
    socket, and closes the peer connection of every link the coordinator
    held; no link is connected afterwards and no platform object is
    removed from the store. *)
Theorem end_call_releases_everything (st : State) :
  let st' := endCall st in
  isCallActive st' = false ∧ peersRef st' = [] ∧ peers st' = [] ∧
  remoteStreams st' = [] ∧ localStreamRef st' = None ∧
  (∀ m t, localStreamRef st = Some m → t ∈ stream_tracks m → t ∈ stopped st') ∧
  (∀ sid, socket st = Some sid → outbox st' = outbox st ++ [EndVideoCall]) ∧
  length (connections st') = length (connections st) ∧
  (∀ u peer pc, JsMap.get u (peersRef st) = Some peer →
     connections st !! connection peer = Some pc →
     ∃ pc', connections st' !! connection peer = Some pc' ∧
            closed pc' = true) ∧
  (∀ u, link_connected st' u = false).
Proof.
  intros st'.
  destruct (endCall_fields st)
    as (Hs & Ha & Hp & Hpr & Hrs & Hlr & Hls & Hst & Hout & Hlen).
  fold st' in Hs, Ha, Hp, Hpr, Hrs, Hlr, Hls, Hst, Hout, Hlen.
  do 5 (split; [done|]). split; [|split; [|split; [done|split]]].
  - intros m t Hm Ht. rewrite Hst, Hm. apply elem_of_app. by right.
  - intros sid Hsid. by rewrite Hout, Hsid.
  - intros u peer pc Hget Hpc. subst st'. rewrite endCall_connections.
    eapply close_all_closes; [|done].
    by eapply JsMapFacts.get_Some_values.
  - intros u. unfold link_connected, link. by rewrite Hpr.
Qed.

Lemma end_call_releases_everything_witness :
  ∃ pc', connections (endCall linked) !! 0 = Some pc' ∧ closed pc' = true.
Proof.
  destruct (end_call_releases_everything linked)
    as (_ & _ & _ & _ & _ & _ & _ & _ & Hclose & _).
  apply (Hclose "s2" {| userId := "s2"; connection := 0 |}
           {| rtc_userId := "s2";
              rtc_calls :=
                [AddTrack "audio0" "local"; AddTrack "video0" "local";
                 CreateOffer; SetLocalDescription Registry.sample_offer;
                 SetRemoteDescription Registry.sample_answer] |}).
  - reflexivity.
  - reflexivity.
Defined.

(** X16.  In every state the coordinator reaches, a user-left for one user
    leaves the link to any other user as it was: its entry in the peer
    map, its peer connection with the calls made on it, and its remote
    stream. *)
Theorem user_left_spares_other_links (sock : option string)
    (ins : list Session.Input) (gone other : string) :
  let st := Session.state_after sock ins in
  let st' := on_user_left gone st in
  gone ≠ other →
  JsMap.get other (peersRef st') = JsMap.get other (peersRef st) ∧
  link st' other = link st other ∧
  link_connected st' other = link_connected st other ∧
  JsMap.get other (remoteStreams st') = JsMap.get other (remoteStreams st).
Proof.
  intros st st' Hne.
  pose proof (well_formed_run (init sock) ins (well_formed_init sock)) as Hwf.
  fold (Session.state_after sock ins) in Hwf. fold st in Hwf.
  subst st'. unfold on_user_left.
  destruct (JsMap.get gone (peersRef st)) as [peer|] eqn:Hgone; [|done].
  assert (Hlink : link
            (setRemoteStreams (JsMap.delete gone)
               (setPeers (peersRef (with_peersRef (JsMap.delete gone)
                                      (invoke (connection peer) Close st)))
                  (with_peersRef (JsMap.delete gone)
                     (invoke (connection peer) Close st)))) other
          = link st other).
  { unfold link. simpl. rewrite JsMapFacts.get_delete_ne by done.
    destruct (JsMap.get other (peersRef st)) as [p|] eqn:Hother; [|done].
    simpl. apply list_lookup_alter_ne. intros Heq.
    destruct (wf_link _ Hwf _ _ Hgone) as [_ (pc1 & Hpc1 & Hid1)].
    destruct (wf_link _ Hwf _ _ Hother) as [_ (pc2 & Hpc2 & Hid2)].
    rewrite Heq in Hpc1. congruence. }
  split; [|split; [done|split]].
  - simpl. by rewrite JsMapFacts.get_delete_ne.
  - unfold link_connected. by rewrite Hlink.
  - simpl. by rewrite JsMapFacts.get_delete_ne.
Qed.

Lemma user_left_spares_other_links_witness :
  link (on_user_left "s2" (Session.state_after (Some "s1") two_links_inputs))
    "s3" =
  link (Session.state_after (Some "s1") two_links_inputs) "s3".
Proof.
  apply (user_left_spares_other_links (Some "s1") two_links_inputs "s2" "s3").
  discriminate.
Defined.

(** X17.  A user-joined is ignored by a coordinator whose call is not
    active.  With an active call the coordinator makes a new peer
    connection for the new user, attaches the local tracks, creates and
    sets an offer, and sends exactly one offer, to the new user; the link
    is not connected until an answer comes; no call is made on any
    connection that existed, and the entries of other users in the peer
    map stay. *)
Theorem user_joined_offers_to_newcomer_only (st : State) (sid user name : string)
    (us : list Member) (offer : RTCSessionDescriptionInit) :
  let st' := on_server_event offer (UserJoined user name us) st in
  socket st = Some sid →
  (isCallActive st = false → st' = st) ∧
  (isCallActive st = true →
     outbox st' = outbox st ++ [WebrtcOffer user offer] ∧
     offers_sent (outbox st') = offers_sent (outbox st) ++ [user] ∧
     link st' user =
       Some {| rtc_userId := user;
               rtc_calls := local_tracks st ++
                 [CreateOffer; SetLocalDescription offer] |} ∧
     link_connected st' user = false ∧
     (∀ k pc, connections st !! k = Some pc → connections st' !! k = Some pc) ∧
     (∀ u', u' ≠ user →
        JsMap.get u' (peersRef st') = JsMap.get u' (peersRef st))).
Proof.
  intros st' Hs. subst st'. unfold on_server_event, on_user_joined.
  rewrite Hs. split; [by intros ->|]. intros ->.
  assert (Hlink : link (initiateCall offer user st) user =
            Some {| rtc_userId := user;
                    rtc_calls := local_tracks st ++
                      [CreateOffer; SetLocalDescription offer] |}).
  { unfold link. rewrite initiateCall_peersRef, JsMapFacts.get_set_eq. simpl.
    rewrite initiateCall_connections. apply lookup_last. }
  split; [by eapply initiateCall_outbox|].
  split; [|split; [done|split; [|split]]].
  - erewrite initiateCall_outbox by done. unfold offers_sent.
    by rewrite omap_app.
  - unfold link_connected. rewrite Hlink.
    unfold has_remote_description. simpl. rewrite existsb_app. simpl.
    rewrite existsb_local_tracks by done. simpl.
    by rewrite andb_false_r.
  - intros k pc Hk. rewrite initiateCall_connections.
    by apply lookup_app_l_Some.
  - intros u' Hne. rewrite initiateCall_peersRef.
    by apply JsMapFacts.get_set_ne.
Qed.

Lemma user_joined_offers_to_newcomer_only_witness :
  offers_sent
    (outbox (on_server_event Registry.sample_offer
               (UserJoined "s3" "cy" []) linked)) =
  offers_sent (outbox linked) ++ ["s3"].
Proof.
  apply (user_joined_offers_to_newcomer_only linked "s1" "s3" "cy" []
           Registry.sample_offer).
  - reflexivity.
  - reflexivity.
Defined.

(** X18.  In every state the coordinator reaches: a candidate gathered on
    the peer connection of the link to a user is sent to that user, and
    the end-of-candidates signal (no candidate) sends nothing.  The relay
    tags it with the sender's id, and a coordinator that holds a link to
    the sender hands it to that link's peer connection, after the
    candidates it was handed before. *)
Theorem candidate_travels_between_links (sock : option string)
    (ins : list Session.Input) (sid remote : string) (peer : PeerConnection)
    (cand : RTCIceCandidateInit) (other : State) (peer' : PeerConnection)
    (pc' : RTCPeerConnection) (created : RTCSessionDescriptionInit) :
  let st := Session.state_after sock ins in
  sock = Some sid →
  JsMap.get remote (peersRef st) = Some peer →
  is_Some (socket other) →
  JsMap.get sid (peersRef other) = Some peer' →
  connections other !! connection peer' = Some pc' →
  outbox (onicecandidate (connection peer) (Some cand) st) =
    outbox st ++ [WebrtcIceCandidate remote cand] ∧
  onicecandidate (connection peer) None st = st ∧
  Registry.relayed sid (WebrtcIceCandidate remote cand) =
    Some (RelayedIceCandidate cand sid) ∧
  ∃ pc'', link (on_server_event created (RelayedIceCandidate cand sid) other)
            sid = Some pc'' ∧
          candidates_added pc'' = candidates_added pc' ++ [cand].
Proof.
  intros st -> Hpeer [osock Hosock] Hpeer' Hpc'.
  destruct (coordinator_state_is_consistent (Some sid) ins)
    as (_ & _ & _ & Hsock & Hlink).
  fold st in Hsock, Hlink.
  destruct (Hlink _ _ Hpeer) as [_ (pc & Hpc & Hid)].
  split; [|split; [|split; [done|]]].
  - unfold onicecandidate, emit. by rewrite Hpc, Hsock, Hid.
  - unfold onicecandidate. by rewrite Hpc.
  - unfold on_server_event, handleIceCandidate. rewrite Hosock, Hpeer'.
    exists (record_call (AddIceCandidate cand) pc'). split.
    + unfold link. simpl. rewrite Hpeer'. simpl.
      by rewrite list_lookup_alter_eq, Hpc'.
    + unfold candidates_added. simpl. by rewrite omap_app.
Qed.

Lemma candidate_travels_between_links_witness :
  outbox (onicecandidate 0 (Some Registry.sample_candidate)
            (Session.state_after (Some "s1") linked_inputs)) =
    outbox (Session.state_after (Some "s1") linked_inputs) ++
    [WebrtcIceCandidate "s2" Registry.sample_candidate].
Proof.
  apply (candidate_travels_between_links (Some "s1") linked_inputs
           "s1" "s2" {| userId := "s2"; connection := 0 |}
           Registry.sample_candidate answered_idle
           {| userId := "s1"; connection := 0 |}
           {| rtc_userId := "s1";
              rtc_calls :=
                [SetRemoteDescription Registry.sample_offer; CreateAnswer;
                 SetLocalDescription Registry.sample_answer] |}
           Registry.sample_offer).
  - reflexivity.
  - vm_compute. reflexivity.
  - vm_compute. eauto.
  - vm_compute. reflexivity.
  - vm_compute. reflexivity.
Defined.

(** X19.  In every state the coordinator reaches, an offer that arrives
    while no call is active is answered all the same: the answer is sent
    to the offerer and the link is connected, but the coordinator holds no
    local media then, so no track is attached to the new peer connection. *)
Theorem offer_is_answered_without_call (sid : string)
    (ins : list Session.Input) (answer offer : RTCSessionDescriptionInit)
    (user : string) :
  let st := Session.state_after (Some sid) ins in
  let st' := on_server_event answer (RelayedOffer offer user) st in
  isCallActive st = false →
  outbox st' = outbox st ++ [WebrtcAnswer user answer] ∧
  link st' user =
    Some {| rtc_userId := user;
            rtc_calls := [SetRemoteDescription offer; CreateAnswer;
                          SetLocalDescription answer] |} ∧
  link_connected st' user = true ∧
  isCallActive st' = false.
Proof.
  intros st st' Hidle.
  destruct (coordinator_state_is_consistent (Some sid) ins)
    as (_ & _ & Hact & Hsock & _).
  fold st in Hact, Hsock.
  assert (Hnone : localStreamRef st = None).
  { destruct (localStreamRef st) eqn:Hl; [|done].
    assert (isCallActive st = true) by (apply Hact; eauto). congruence. }
  assert (Htracks : local_tracks st = []).
  { unfold local_tracks. by rewrite Hnone. }
  subst st'. unfold on_server_event. rewrite Hsock.
  split; [by eapply handleOffer_outbox|]. split; [|split].
  - unfold link. rewrite handleOffer_peersRef, JsMapFacts.get_set_eq. simpl.
    rewrite handleOffer_connections, Htracks. apply lookup_last.
  - apply handleOffer_connected.
  - by destruct (handleOffer_fields answer offer user st) as (_ & -> & _).
Qed.

Lemma offer_is_answered_without_call_witness :
  link_connected
    (on_server_event Registry.sample_answer
       (RelayedOffer Registry.sample_offer "s1")
       (Session.state_after (Some "s2") [])) "s1" = true.
Proof.
  apply (offer_is_answered_without_call "s2" [] Registry.sample_answer
           Registry.sample_offer "s1").
  reflexivity.
Defined.

(** X20.  In every state the coordinator reaches, a remote stream
    delivered by the peer connection of a link is stored under the user of
    that link and nothing else changes; a user-left for that user then
    removes the stream again. *)
Theorem remote_stream_is_kept_until_user_leaves (sock : option string)
    (ins : list Session.Input) (user : string) (peer : PeerConnection)
    (stream : MediaStream) :
  let st := Session.state_after sock ins in
  let st' := ontrack (connection peer) stream st in
  JsMap.get user (peersRef st) = Some peer →
  JsMap.get user (remoteStreams st') = Some stream ∧
  (∀ u, u ≠ user →
     JsMap.get u (remoteStreams st') = JsMap.get u (remoteStreams st)) ∧
  peersRef st' = peersRef st ∧ connections st' = connections st ∧
  outbox st' = outbox st ∧
  JsMap.get user (remoteStreams (on_user_left user st')) = None.
Proof.
  intros st st' Hpeer.
  destruct (coordinator_state_is_consistent sock ins)
    as (_ & _ & _ & _ & Hlink).
  fold st in Hlink. destruct (Hlink _ _ Hpeer) as [_ (pc & Hpc & Hid)].
  subst st'. unfold ontrack. rewrite Hpc, Hid. simpl.
  split; [apply JsMapFacts.get_set_eq|]. split.
  { intros u Hne. apply JsMapFacts.get_set_ne. congruence. }
  do 3 (split; [done|]).
  unfold on_user_left. simpl. rewrite Hpeer. simpl.
  apply JsMapFacts.get_delete_eq.
Qed.

Lemma remote_stream_is_kept_until_user_leaves_witness :
  JsMap.get "s2"
    (remoteStreams
       (ontrack 0 {| stream_id := "remote"; stream_tracks := ["v"] |}
          (Session.state_after (Some "s1") linked_inputs))) =
  Some {| stream_id := "remote"; stream_tracks := ["v"] |}.
Proof.
  apply (remote_stream_is_kept_until_user_leaves (Some "s1") linked_inputs
           "s2" {| userId := "s2"; connection := 0 |}
           {| stream_id := "remote"; stream_tracks := ["v"] |}).
  vm_compute. reflexivity.
Defined.

(** X21.  The hook installs no listener for video-call-ended: when a peer
    ends its call, which closes the peer's own side of every link and
    sends end-video-call, the video-call-ended the relay makes of it
    leaves a coordinator exactly as it was, so a link it holds to that
    peer stays in its peer map, connected and not closed. *)
Theorem peer_end_call_leaves_remote_link (ender other : State)
    (eid : string) (created : RTCSessionDescriptionInit) :
  socket ender = Some eid →
  link_connected other eid = true →
  outbox (endCall ender) = outbox ender ++ [EndVideoCall] ∧
  (∀ u, link_connected (endCall ender) u = false) ∧
  on_server_event created (VideoCallEnded eid) other = other ∧
  link_connected (on_server_event created (VideoCallEnded eid) other) eid
    = true.
Proof.
  intros Hs Hlink.
  destruct (end_call_releases_everything ender)
    as (_ & _ & _ & _ & _ & _ & Hout & _ & _ & Hnone).
  split; [by eapply Hout|]. split; [done|].
  assert (Hsame : on_server_event created (VideoCallEnded eid) other = other).
  { unfold on_server_event. by destruct (socket other). }
  by rewrite Hsame.
Qed.

Lemma peer_end_call_leaves_remote_link_witness :
  link_connected
    (on_server_event Registry.sample_offer (VideoCallEnded "s1") answered_idle)
    "s1" = true.
Proof.
  apply (peer_end_call_leaves_remote_link linked answered_idle "s1"
           Registry.sample_offer).
  - reflexivity.
  - reflexivity.
Defined.

End CoordinatorMore.

(** ** The chat page and the registry *)

Module PageFacts.
Import Server Registry RegistryFacts.

Lemma on_event_ignored (ev : ServerEvent) (p : Page.State) :
  match ev with
  | RoomJoined _ _ _ _ | UserJoined _ _ _ | UserLeft _ _ _ | NewMessage _ => False
  | _ => True
  end → Page.on_event ev p = p.
Proof. by destruct ev. Qed.

Lemma delivered_nil (st : State) (s : string) : Page.delivered st s [] = [].
Proof. done. Qed.

Lemma delivered_cons_in (st : State) (s : string) (e : Emit) (out : list Emit) :
  s ∈ recipients st (target e) →
  Page.delivered st s (e :: out) = event e :: Page.delivered st s out.
Proof. intros Hin. unfold Page.delivered. simpl. by rewrite decide_True. Qed.

Lemma delivered_cons_out (st : State) (s : string) (e : Emit) (out : list Emit) :
  s ∉ recipients st (target e) →
  Page.delivered st s (e :: out) = Page.delivered st s out.
Proof. intros Hin. unfold Page.delivered. simpl. by rewrite decide_False. Qed.

Lemma placed_in_channel (s r : string) (st : State) (c : string) :
  Page.placed s r st → (s ∈ in_channel st c ↔ c = s ∨ c = r).
Proof.
  intros (cs & Hs & Hcs). rewrite elem_of_in_channel. split.
  - intros (cs' & Hs' & Hc). rewrite Hs in Hs'. injection Hs' as <-.
    by apply Hcs.
  - intros Hc. exists cs. split; [done | by apply Hcs].
Qed.

Lemma placed_receives_room (s r : string) (st : State) (t : string) :
  Page.placed s r st → t ≠ s → t ≠ r → s ∈ recipients st (ToChannelExcept r t).
Proof.
  intros Hp Hts Htr. simpl. apply elem_of_difference. split.
  - apply (placed_in_channel s r st r Hp). by right.
  - rewrite (placed_in_channel s r st t Hp). intros [?|?]; congruence.
Qed.

Lemma placed_receives_all (s r : string) (st : State) :
  Page.placed s r st → s ∈ recipients st (ToChannel r).
Proof. intros Hp. simpl. apply (placed_in_channel s r st r Hp). by right. Qed.

Lemma placed_misses_except (s r : string) (st : State) (c t : string) :
  Page.placed s r st → c ≠ s → c ≠ r → s ∉ recipients st (ToChannelExcept c t).
Proof.
  intros Hp Hcs Hcr. simpl.
  rewrite elem_of_difference, (placed_in_channel s r st c Hp).
  intros [[?|?] _]; congruence.
Qed.

Lemma placed_misses_all (s r : string) (st : State) (c : string) :
  Page.placed s r st → c ≠ s → c ≠ r → s ∉ recipients st (ToChannel c).
Proof.
  intros Hp Hcs Hcr. simpl. rewrite (placed_in_channel s r st c Hp).
  intros [?|?]; congruence.
Qed.

Lemma placed_misses_socket (s : string) (st : State) (t : string) :
  t ≠ s → s ∉ recipients st (ToSocket t).
Proof. intros Hne. simpl. rewrite elem_of_singleton. congruence. Qed.

Lemma allowed_keeps_sockets (s r : string) (st : State) (i : Input) :
  Page.allowed s r i → is_Some (sockets st !! s) → sockets st !! r = None →
  sockets (step st i).1 !! s = sockets st !! s ∧
  sockets (step st i).1 !! r = None.
Proof.
  intros Hal Hs Hr. destruct i as [t|t ev env|t]; simpl in *.
  - destruct (connected st t) eqn:Ht; [done|]. simpl.
    apply connected_false in Ht.
    rewrite !lookup_insert_ne; [done|done|]. intros ->.
    rewrite Ht in Hs. by destruct Hs.
  - destruct (connected st t) eqn:Ht; [|done].
    apply connected_true in Ht.
    assert (Htr : t ≠ r) by (intros ->; rewrite Hr in Ht; by destruct Ht).
    destruct ev; simpl; try done.
    + destruct Hal as [Hts _]. unfold on_join_room. simpl.
      by rewrite !lookup_alter_ne.
    + unfold on_send_message. destruct (users st !! t); [|done].
      by destruct (rooms st !! _).
    + unfold on_start_video_call. by destruct (users st !! t).
    + unfold on_end_video_call. by destruct (users st !! t).
  - destruct (connected st t) eqn:Ht; [|done].
    assert (Hd : delete t (sockets st) !! s = sockets st !! s ∧
                 delete t (sockets st) !! r = None).
    { rewrite lookup_delete_ne by done. split; [done|].
      rewrite lookup_delete. by case_decide. }
    unfold on_disconnect. simpl. destruct (users st !! t); [|done].
    destruct (rooms st !! _); [|done]. by case_decide.
Qed.

Lemma allowed_keeps_registry (s r : string) (st : State) (i : Input) :
  Page.allowed s r i → rooms st !! s = None →
  rooms (step st i).1 !! s = None ∧
  users (step st i).1 !! s = users st !! s.
Proof.
  intros Hal Hs. destruct i as [t|t ev env|t]; simpl in *.
  - by destruct (connected st t).
  - destruct (connected st t) eqn:Ht; [|done].
    destruct ev; simpl; try done.
    + destruct Hal as [Hts Hrs]. unfold on_join_room. simpl.
      by rewrite !lookup_insert_ne.
    + unfold on_send_message. destruct (users st !! t) as [u|]; [|done].
      destruct (rooms st !! user_roomId u) eqn:Hroom; [|done]. simpl.
      split; [|done]. rewrite lookup_insert_ne; [done|]. congruence.
    + unfold on_start_video_call. by destruct (users st !! t).
    + unfold on_end_video_call. by destruct (users st !! t).
  - destruct (connected st t) eqn:Ht; [|done].
    unfold on_disconnect. simpl. destruct (users st !! t) as [u|]; [|done].
    destruct (rooms st !! user_roomId u) eqn:Hroom; simpl.
    + case_decide; simpl.
      * rewrite lookup_delete_ne by congruence.
        by rewrite lookup_delete_ne.
      * rewrite lookup_insert_ne by congruence.
        by rewrite lookup_delete_ne.
    + by rewrite lookup_delete_ne.
Qed.

Lemma delivered_own_socket (st1 st2 : State) (s : string) (out : list Emit) :
  sockets st1 !! s = sockets st2 !! s →
  Page.delivered st1 s out = Page.delivered st2 s out.
Proof.
  intros Hs.
  assert (Hch : ∀ c, s ∈ in_channel st1 c ↔ s ∈ in_channel st2 c).
  { intros c. rewrite !elem_of_in_channel. by rewrite Hs. }
  assert (Hrec : ∀ tg, s ∈ recipients st1 tg ↔ s ∈ recipients st2 tg).
  { intros [t|c t|c]; simpl; [done| |done].
    by rewrite !elem_of_difference, !Hch. }
  induction out as [|e out IH]; [done|].
  destruct (decide (s ∈ recipients st1 (target e))) as [Hin|Hout].
  - rewrite !delivered_cons_in; [by rewrite IH | by apply Hrec | done].
  - rewrite !delivered_cons_out; [done | by rewrite <- Hrec | done].
Qed.

Lemma own_action_allowed (s r t : string) (ev : ClientEvent) (env : Env)
    (p : Page.State) :
  Page.allowed s r (On t ev env) →
  (if decide (t = s) then Page.own_action ev p else p) = p.
Proof.
  intros Hal. case_decide; [|done]. subst.
  destruct ev; simpl in *; try done; by destruct Hal.
Qed.

Lemma ignored_event (st : State) (s : string) (tg : Target) (ev : ServerEvent)
    (p : Page.State) :
  Page.on_event ev p = p →
  foldl (λ p ev, Page.on_event ev p) p
    (Page.delivered st s [ {| target := tg; event := ev |} ]) = p.
Proof.
  intros Hev. unfold Page.delivered. simpl. by case_decide.
Qed.

Lemma step_follows (s r : string) (st : State) (p : Page.State) (i : Input) :
  Page.follows s r st p → Page.allowed s r i →
  Page.follows s r (Page.watch_step s (st, p) i).1
    (Page.watch_step s (st, p) i).2.
Proof.
  intros [Hinv (u & Hu & Hur) Hchan Hnoroom Hnosock Hlisten
            (room & Hroom & Hin & Hmsgs & Husers)] Hal.
  assert (Hs : is_Some (sockets st !! s)).
  { destruct Hchan as (cs & -> & _). eauto. }
  destruct (allowed_keeps_sockets s r st i Hal Hs Hnosock) as [Hs' Hr'].
  destruct (allowed_keeps_registry s r st i Hal Hnoroom) as [Hnoroom' Hu'].
  unfold Page.watch_step. cbn [fst snd].
  rewrite (delivered_own_socket _ st s _ Hs').
  assert (Hown : match i with
                 | On t ev _ =>
                     if decide (t = s) then Page.own_action ev p else p
                 | _ => p
                 end = p).
  { destruct i as [t|t ev env|t]; [done| |done].
    by eapply own_action_allowed. }
  rewrite Hown. clear Hown.
  enough (Hgoal : Page.membershipListeners
            (foldl (λ p ev, Page.on_event ev p) p
               (Page.delivered st s (step st i).2)) = true ∧
          ∃ room0, rooms (step st i).1 !! r = Some room0 ∧
            Page.isInRoom
              (foldl (λ p ev, Page.on_event ev p) p
                 (Page.delivered st s (step st i).2)) = true ∧
            Page.messages
              (foldl (λ p ev, Page.on_event ev p) p
                 (Page.delivered st s (step st i).2)) = room_messages room0 ∧
            Page.users
              (foldl (λ p ev, Page.on_event ev p) p
                 (Page.delivered st s (step st i).2)) =
              JsMap.values (room_users room0)).
  { destruct Hgoal as [Hl Hv].
    split; [by apply invariant_step | exists u; by rewrite Hu'
           | by rewrite Hs' | done | done | done | done]. }
  assert (Hrs : r ≠ s).
  { intros ->. rewrite Hnosock in Hs. by destruct Hs. }
  assert (Hview : Page.membershipListeners p = true ∧
            ∃ room0, rooms st !! r = Some room0 ∧
            Page.isInRoom p = true ∧
            Page.messages p = room_messages room0 ∧
            Page.users p = JsMap.values (room_users room0)) by eauto 10.
  destruct i as [t|t ev env|t]; cbn [step].
  - destruct (connected st t); done.
  - destruct (connected st t) eqn:Ht; [|done].
    apply connected_true in Ht.
    assert (Htr : t ≠ r) by (intros ->; rewrite Hnosock in Ht; by destruct Ht).
    destruct ev; cbn [dispatch].
    + (* join-room *)
      destruct Hal as [Hts Hrs']. unfold on_join_room. cbn [fst snd rooms].
      destruct (decide (roomId = r)) as [->|Hne].
      * rewrite Hroom. rewrite delivered_cons_in
          by (by apply (placed_receives_room s r st)).
        rewrite delivered_cons_out by (by apply placed_misses_socket).
        simpl. rewrite Hlisten. simpl. split; [done|].
        eexists. rewrite lookup_insert_eq. split; [done|]. simpl.
        split; [done|]. split; done.
      * rewrite delivered_cons_out by (by apply (placed_misses_except s r st)).
        rewrite delivered_cons_out by (by apply placed_misses_socket).
        simpl. by rewrite lookup_insert_ne.
    + (* send-message *)
      unfold on_send_message. destruct (users st !! t) as [ut|]; [|done].
      destruct (rooms st !! user_roomId ut) as [rm|] eqn:Hrm; [|done].
      assert (Hrts : user_roomId ut ≠ s) by congruence.
      cbn [fst snd rooms].
      destruct (decide (user_roomId ut = r)) as [Heq|Hne].
      * rewrite Heq in *. rewrite Hroom in Hrm. injection Hrm as <-.
        rewrite delivered_cons_in by (by apply (placed_receives_all s r st)).
        simpl. split; [done|].
        eexists. rewrite lookup_insert_eq. split; [done|]. simpl.
        split; [done|]. by rewrite Hmsgs.
      * rewrite delivered_cons_out by (by apply (placed_misses_all s r st)).
        simpl. by rewrite lookup_insert_ne.
    + unfold on_webrtc_offer. cbn [fst snd]. by rewrite ignored_event.
    + unfold on_webrtc_answer. cbn [fst snd]. by rewrite ignored_event.
    + unfold on_webrtc_ice_candidate. cbn [fst snd]. by rewrite ignored_event.
    + unfold on_start_video_call. destruct (users st !! t); [|done].
      cbn [fst snd]. by rewrite ignored_event.
    + unfold on_end_video_call. destruct (users st !! t); [|done].
      cbn [fst snd]. by rewrite ignored_event.
  - (* disconnect *)
    simpl in Hal. destruct (connected st t) eqn:Ht; [|done].
    apply connected_true in Ht.
    assert (Htr : t ≠ r) by (intros ->; rewrite Hnosock in Ht; by destruct Ht).
    unfold on_disconnect. cbn [users rooms].
    destruct (users st !! t) as [ut|]; [|done].
    destruct (rooms st !! user_roomId ut) as [rm|] eqn:Hrm; [|done].
    assert (Hrts : user_roomId ut ≠ s) by congruence.
    destruct (inv_user _ Hinv s u Hu) as [_ (room1 & Hroom1 & Hsin)].
    rewrite Hur, Hroom in Hroom1. injection Hroom1 as <-.
    destruct (decide (user_roomId ut = r)) as [Heq|Hne].
    + rewrite Heq in *. rewrite Hroom in Hrm. injection Hrm as <-.
      rewrite decide_False.
      * cbn [fst snd rooms].
        rewrite delivered_cons_in by (by apply (placed_receives_room s r st)).
        simpl. rewrite Hlisten. simpl. split; [done|].
        eexists. rewrite lookup_insert_eq. split; [done|]. simpl.
        split; done.
      * unfold JsMap.size. simpl. intros Hlen.
        apply length_zero_iff_nil in Hlen.
        rewrite <- (JsMapFacts.get_delete_ne _ t s) in Hsin by done.
        rewrite Hlen in Hsin. by destruct Hsin.
    + case_decide; cbn [fst snd rooms].
      * simpl. by rewrite lookup_delete_ne.
      * rewrite delivered_cons_out by (by apply (placed_misses_except s r st)).
        simpl. by rewrite lookup_insert_ne.
Qed.

Lemma watch_follows (s r : string) (ins : list Input) (st : State)
    (p : Page.State) :
  Page.follows s r st p → Forall (Page.allowed s r) ins →
  Page.follows s r (Page.watch s st p ins).1 (Page.watch s st p ins).2.
Proof.
  revert st p. induction ins as [|i ins IH]; intros st p Hf Hal; [done|].
  apply Forall_cons in Hal as [Hi Hal]. unfold Page.watch. simpl.
  pose proof (step_follows s r st p i Hf Hi) as Hstep.
  destruct (Page.watch_step s (st, p) i) as [st1 p1].
  by apply IH.
Qed.

Lemma watch_server_state (s : string) (ins : list Input) (st : State)
    (p : Page.State) :
  (Page.watch s st p ins).1 = (run st ins).1.
Proof.
  revert st p. induction ins as [|i ins IH]; intros st p; [done|].
  rewrite run_cons_state. unfold Page.watch. simpl.
  unfold Page.watch_step at 2. cbn [fst snd]. apply IH.
Qed.

Lemma join_follows (s r name : string) (v : option bool) (env : Env)
    (st : State) (p : Page.State) :
  invariant st → connected st s = true → (∀ r', s ∉ member_ids st r') →
  rooms st !! s = None → connected st r = false →
  Page.membershipListeners p = true →
  Page.follows s r
    (Page.watch_step s (st, p) (On s (JoinRoom r name v) env)).1
    (Page.watch_step s (st, p) (On s (JoinRoom r name v) env)).2.
Proof.
  intros Hinv Hs Hnot Hnoroom Hr Hlisten.
  pose proof (invariant_step st (On s (JoinRoom r name v) env) Hinv) as Hinv'.
  apply connected_false in Hr. pose proof Hs as Hconn.
  apply connected_true in Hs as [cs Hs].
  assert (Hrs : r ≠ s) by (intros ->; congruence).
  assert (Hcs : ∀ c, c ∈ cs ↔ c = s).
  { intros c. split.
    - intros Hc. destruct (inv_channel _ Hinv s cs c Hs Hc)
        as [->|(room & Hroom & Hin)]; [done|].
      exfalso. apply (Hnot c). apply elem_of_member_ids. eauto.
    - intros Heq. rewrite Heq. exact (inv_own_channel _ Hinv s cs Hs). }
  unfold Page.watch_step in *. cbn [fst snd step] in *. rewrite Hconn in *.
  rewrite decide_True by done. cbn [Page.own_action].
  cbn [dispatch] in *. unfold on_join_room in *. cbn [fst snd] in *.
  set (room := match rooms st !! r with Some room => room | None => _ end) in *.
  assert (Hplaced : Page.placed s r (socket_join s r
            {| rooms := <[ r := {| room_id := room_id room;
                                   room_users :=
                                     JsMap.set s
                                       {| member_id := s;
                                          member_username := name;
                                          member_joinedAt := now env |}
                                       (room_users room);
                                   room_messages := room_messages room;
                                   room_isVideoCall := room_isVideoCall room |} ]>
                          (rooms st);
               users := <[ s := {| user_roomId := r; user_username := name |} ]>
                          (users st);
               sockets := sockets st |})).
  { exists ({[ r ]} ∪ cs). simpl. rewrite lookup_alter_eq, Hs. split; [done|].
    intros c. rewrite elem_of_union, elem_of_singleton, Hcs. tauto. }
  rewrite delivered_cons_out.
  2:{ simpl. rewrite elem_of_difference. intros [_ Hn]. apply Hn.
      apply (placed_in_channel s r _ s Hplaced). by left. }
  rewrite delivered_cons_in by (simpl; by apply elem_of_singleton).
  split; simpl.
  - done.
  - eexists. by rewrite lookup_insert_eq.
  - exact Hplaced.
  - by rewrite lookup_insert_ne.
  - by rewrite lookup_alter_ne.
  - done.
  - eexists. rewrite lookup_insert_eq. split; [done|]. done.
Qed.

(** X22.  The chat page, followed from the join of its connection on: when
    the page's listeners are on the socket and a live connection that is
    in no room joins a room, and from then on it neither joins again nor
    disconnects nor starts or ends a call, nobody joins a room whose id is
    this connection's id, and no connection has the room's id, then after
    every further input the page has handled exactly the events that reach
    it and shows the messages and the member list of the room as the
    registry holds them. *)
Theorem page_shows_room_as_registered (pre post : list Input)
    (s r name : string) (v : option bool) (env : Env) (p0 : Page.State) :
  let st0 := state_after pre in
  let ins := On s (JoinRoom r name v) env :: post in
  let res := Page.watch s st0 p0 ins in
  Page.membershipListeners p0 = true →
  connected st0 s = true → (∀ r', s ∉ member_ids st0 r') →
  rooms st0 !! s = None → connected st0 r = false →
  Forall (Page.allowed s r) post →
  res.1 = (run st0 ins).1 ∧
  ∃ room, rooms res.1 !! r = Some room ∧
    Page.isInRoom res.2 = true ∧
    Page.messages res.2 = room_messages room ∧
    Page.users res.2 = JsMap.values (room_users room).
Proof.
  intros st0 ins res Hlisten Hs Hnot Hnoroom Hr Hal.
  split; [apply watch_server_state|].
  pose proof (join_follows s r name v env st0 p0
                (invariant_state_after pre) Hs Hnot Hnoroom Hr Hlisten)
    as Hjoin.
  subst res ins. unfold Page.watch. cbn [foldl].
  destruct (Page.watch_step s (st0, p0) (On s (JoinRoom r name v) env))
    as [st1 p1].
  by destruct (watch_follows s r post st1 p1 Hjoin Hal).
Qed.

Lemma page_shows_room_as_registered_witness :
  ∃ room,
    rooms (Page.watch "s2" (state_after (take 3 two_in_room)) Page.init
             (On "s2" (JoinRoom "A" "bob" None) (at_time 2) ::
              [ On "s1" (SendMessage "hi") (at_time 3);
                Connection "s3";
                On "s3" (JoinRoom "A" "cy" None) (at_time 4);
                On "s2" (SendMessage "yo") (at_time 5);
                Disconnect "s1" ])).1 !! "A" = Some room ∧
    Page.isInRoom
      (Page.watch "s2" (state_after (take 3 two_in_room)) Page.init
         (On "s2" (JoinRoom "A" "bob" None) (at_time 2) ::
          [ On "s1" (SendMessage "hi") (at_time 3);
            Connection "s3";
            On "s3" (JoinRoom "A" "cy" None) (at_time 4);
            On "s2" (SendMessage "yo") (at_time 5);
            Disconnect "s1" ])).2 = true ∧
    Page.messages
      (Page.watch "s2" (state_after (take 3 two_in_room)) Page.init
         (On "s2" (JoinRoom "A" "bob" None) (at_time 2) ::
          [ On "s1" (SendMessage "hi") (at_time 3);
            Connection "s3";
            On "s3" (JoinRoom "A" "cy" None) (at_time 4);
            On "s2" (SendMessage "yo") (at_time 5);
            Disconnect "s1" ])).2 = room_messages room ∧
    Page.users
      (Page.watch "s2" (state_after (take 3 two_in_room)) Page.init
         (On "s2" (JoinRoom "A" "bob" None) (at_time 2) ::
          [ On "s1" (SendMessage "hi") (at_time 3);
            Connection "s3";
            On "s3" (JoinRoom "A" "cy" None) (at_time 4);
            On "s2" (SendMessage "yo") (at_time 5);
            Disconnect "s1" ])).2 = JsMap.values (room_users room).
Proof.
  apply (page_shows_room_as_registered (take 3 two_in_room)
           [ On "s1" (SendMessage "hi") (at_time 3);
             Connection "s3";
             On "s3" (JoinRoom "A" "cy" None) (at_time 4);
             On "s2" (SendMessage "yo") (at_time 5);
             Disconnect "s1" ]
           "s2" "A" "bob" None (at_time 2) Page.init).
  - reflexivity.
  - vm_compute. reflexivity.
  - intros r' Hin. apply elem_of_member_ids in Hin as (room & Hroom & Hget).
    assert (Hdom : dom (rooms (state_after (take 3 two_in_room))) = {[ "A" ]})
      by (vm_compute; reflexivity).
    assert (Hr : r' ∈ dom (rooms (state_after (take 3 two_in_room))))
      by (apply elem_of_dom; eauto).
    rewrite Hdom in Hr. apply elem_of_singleton in Hr as ->.
    vm_compute in Hroom. injection Hroom as <-. vm_compute in Hget.
    destruct Hget as [m Hm]. discriminate Hm.
  - vm_compute. reflexivity.
  - vm_compute. reflexivity.
  - repeat constructor; simpl; discriminate.
Defined.

Lemma room_joined_goes_to_joiner (st : State) (i : Input) (e : Emit)
    (r : string) (us : list Member) (ms : list ChatMessage) (f : bool) :
  e ∈ (step st i).2 → event e = RoomJoined r us ms f →
  ∃ t name v env, i = On t (JoinRoom r name v) env ∧ target e = ToSocket t.
Proof.
  intros He Hev. destruct i as [t|t ev env|t]; simpl in He.
  - destruct (connected st t); simpl in He; emitted He.
  - destruct (connected st t); simpl in He; [|emitted He].
    destruct ev; simpl in *.
    + emitted He; simpl in Hev; [discriminate|].
      injection Hev as <- _ _ _. eauto 10.
    + unfold on_send_message in *.
      destruct (users st !! t) as [u|]; [|emitted He].
      destruct (rooms st !! user_roomId u); simpl in He; emitted He.
      discriminate.
    + emitted He. discriminate.
    + emitted He. discriminate.
    + emitted He. discriminate.
    + unfold on_start_video_call in *.
      destruct (users st !! t); simpl in He; emitted He. discriminate.
    + unfold on_end_video_call in *.
      destruct (users st !! t); simpl in He; emitted He. discriminate.
  - destruct (connected st t); simpl in He; [|emitted He].
    unfold on_disconnect in *. simpl in *.
    destruct (users st !! t) as [u|]; [|emitted He].
    destruct (rooms st !! user_roomId u) as [room|]; [|emitted He].
    case_decide; simpl in He; emitted He. discriminate.
Qed.

Lemma detached_fold (l : list ServerEvent) (p : Page.State) :
  Page.membershipListeners p = false →
  (∀ ev r us ms f, ev ∈ l → ev ≠ RoomJoined r us ms f) →
  Page.membershipListeners (foldl (λ p ev, Page.on_event ev p) p l) = false ∧
  Page.users (foldl (λ p ev, Page.on_event ev p) p l) = Page.users p.
Proof.
  revert p. induction l as [|ev l IH]; intros p Hl Hno; [done|]. simpl.
  assert (Hstep : Page.membershipListeners (Page.on_event ev p) = false ∧
                  Page.users (Page.on_event ev p) = Page.users p).
  { destruct ev; simpl; rewrite ?Hl; try done.
    exfalso. eapply Hno; [by left | done]. }
  destruct Hstep as [Hl' Hu'].
  destruct (IH (Page.on_event ev p) Hl') as [Hl2 Hu2].
  - intros ev' r us ms f Hin. apply Hno. by right.
  - split; [done | congruence].
Qed.

Lemma elem_of_delivered (st : State) (s : string) (out : list Emit)
    (ev : ServerEvent) :
  ev ∈ Page.delivered st s out →
  ∃ e, e ∈ out ∧ event e = ev ∧ s ∈ recipients st (target e).
Proof.
  unfold Page.delivered. rewrite list_elem_of_omap. intros (e & He & Hev).
  exists e. case_decide; [|done]. injection Hev as <-. done.
Qed.

Lemma detached_step (s : string) (st : State) (p : Page.State) (i : Input) :
  Page.membershipListeners p = false → Page.stays_on s i →
  Page.membershipListeners (Page.watch_step s (st, p) i).2 = false ∧
  Page.users (Page.watch_step s (st, p) i).2 = Page.users p.
Proof.
  intros Hl Hno. unfold Page.watch_step. cbn [fst snd].
  set (p1 := match i with
             | On t ev _ => if decide (t = s) then Page.own_action ev p else p
             | _ => p
             end).
  assert (Hp1 : Page.membershipListeners p1 = false ∧
                Page.users p1 = Page.users p).
  { subst p1. destruct i as [t|t ev env|t]; [done| |done].
    case_decide; [|done].
    destruct ev; simpl; try done; unfold Page.setIsCallActive;
      case_bool_decide; done. }
  destruct Hp1 as [Hl1 Hu1]. rewrite <- Hu1. apply detached_fold; [done|].
  intros ev r us ms f Hin ->.
  apply elem_of_delivered in Hin as (e & He & Hev & Hrec).
  destruct (room_joined_goes_to_joiner _ _ _ _ _ _ _ He Hev)
    as (t & name & v & env & -> & Htg).
  rewrite Htg in Hrec. simpl in Hrec. apply elem_of_singleton in Hrec.
  simpl in Hno. congruence.
Qed.

(** X23.  Once the page's connection has started a call, the page's member
    list is frozen: setting isCallActive re-runs the hook's effect, whose
    cleanup takes the page's user-joined and user-left listeners off the
    socket for good, so whatever the server does afterwards, as long as
    the connection neither joins a room again nor closes, the list the
    page shows stays what it was when the call started. *)
Theorem member_list_freezes_after_call_start (s : string) (st : State)
    (p : Page.State) (env : Env) (ins : list Input) :
  Page.isCallActive p = false →
  Forall (Page.stays_on s) ins →
  Page.membershipListeners
    (Page.watch s st p (On s StartVideoCall env :: ins)).2 = false ∧
  Page.users (Page.watch s st p (On s StartVideoCall env :: ins)).2 =
    Page.users p.
Proof.
  intros Hidle Hno. unfold Page.watch. cbn [foldl].
  assert (Hstart :
    Page.membershipListeners
      (Page.watch_step s (st, p) (On s StartVideoCall env)).2 = false ∧
    Page.users (Page.watch_step s (st, p) (On s StartVideoCall env)).2 =
      Page.users p).
  { unfold Page.watch_step. cbn [fst snd]. rewrite decide_True by done.
    cbn [Page.own_action]. unfold Page.setIsCallActive. rewrite Hidle.
    rewrite bool_decide_eq_false_2 by done.
    set (p1 := Page.hook_effect_rerun _).
    assert (Hu1 : Page.users p1 = Page.users p) by done.
    rewrite <- Hu1. apply detached_fold; [done|].
    intros ev r us ms f Hin ->.
    apply elem_of_delivered in Hin as (e & He & Hev & _).
    destruct (room_joined_goes_to_joiner _ _ _ _ _ _ _ He Hev)
      as (t & name & v & env' & Hi & _). discriminate Hi. }
  destruct (Page.watch_step s (st, p) (On s StartVideoCall env)) as [st1 p1].
  cbn [snd] in Hstart. destruct Hstart as [Hl1 Hu1]. rewrite <- Hu1.
  clear Hu1 Hidle. revert st1 p1 Hl1.
  induction ins as [|i ins IH]; intros st1 p1 Hl1; [done|].
  apply Forall_cons in Hno as [Hi Hno]. cbn [foldl].
  destruct (detached_step s st1 p1 i Hl1 Hi) as [Hl2 Hu2].
  destruct (Page.watch_step s (st1, p1) i) as [st2 p2]. cbn [snd] in *.
  rewrite <- Hu2. by apply IH.
Qed.

Lemma member_list_freezes_after_call_start_witness :
  Page.users
    (Page.watch "s2" (state_after two_in_room)
       {| Page.isInRoom := true; Page.messages := [];
          Page.users := [joined_member "s1" "ann" (at_time 1);
                         joined_member "s2" "bob" (at_time 2)];
          Page.isCallActive := false; Page.membershipListeners := true |}
       (On "s2" StartVideoCall (at_time 3) ::
        [ Connection "s3";
          On "s3" (JoinRoom "A" "cy" None) (at_time 4);
          Disconnect "s1" ])).2 =
  [joined_member "s1" "ann" (at_time 1); joined_member "s2" "bob" (at_time 2)].
Proof.
  apply (member_list_freezes_after_call_start "s2" (state_after two_in_room)
           {| Page.isInRoom := true; Page.messages := [];
              Page.users := [joined_member "s1" "ann" (at_time 1);
                             joined_member "s2" "bob" (at_time 2)];
              Page.isCallActive := false; Page.membershipListeners := true |}
           (at_time 3)
           [ Connection "s3";
             On "s3" (JoinRoom "A" "cy" None) (at_time 4);
             Disconnect "s1" ]).
  - reflexivity.
  - repeat constructor; simpl; discriminate.
Defined.

End PageFacts.
